(** * The string-keyed vector cache of [decanlp/text/vocab.py]

    A shallow embedding of [string_hash], [HashTable], the line loop of
    [Vectors.cache], [Vectors.__getitem__] and [CharNGram.__getitem__],
    followed by the properties the specification states about them.

    Conventions of the embedding.
    - A Python [str] is a [string]; [ord] is the code of the character.
    - A one-dimensional numpy array is a [list]; reading element [z]
      follows numpy (a negative [z] counts from the end, anything out of
      range raises [IndexError]).  The fixed-width unicode array
      [np.array(itos, dtype='U..')] is the list of its elements as they
      read back: numpy pads an element to the width with NUL characters
      and drops every NUL that ends it when the element is read, so a
      key is kept without the NUL characters that end it ([np_str]).
    - [string_hash] returns a [np.uint32].  Under the promotion rules
      of the numpy 1.x series, for which the code was written, adding a
      Python [int] to a [np.uint32] scalar yields a [np.int64]; so
      [hash += 7] and [hash + 7 * probe_count] are 64-bit signed
      additions, written with [int64] below.  [%] on these scalars is
      the floored remainder and is 0 for a zero divisor.
    - A Python call either returns, raises, or is still running when the
      fuel of its [while] loop is spent: [Ret], [Raise], [Diverge]. *)

From Stdlib Require Import ZArith Lia QArith Ascii.
From stdpp Require Import base list strings pretty sorting.

Local Open Scope Z_scope.

(** ** Outcomes of a Python call *)

Inductive exn : Type :=
| ValueError
| IndexError
| RuntimeError
| KeyError
| AttributeError
| TypeError.

Inductive outcome (A : Type) : Type :=
| Ret (a : A)
| Raise (e : exn)
| Diverge.

Arguments Ret {A} a.
Arguments Raise {A} e.
Arguments Diverge {A}.

Definition bind {A B : Type} (m : outcome A) (k : A -> outcome B) : outcome B :=
  match m with
  | Ret a => k a
  | Raise e => Raise e
  | Diverge => Diverge
  end.

Declare Scope py_scope.
Delimit Scope py_scope with py.
Notation "x <- m ;; k" := (bind m (fun x => k))
  (at level 100, m at next level, right associativity) : py_scope.
Local Open Scope py_scope.

(** ** Machine integers and numpy indexing *)

Definition uint32 (z : Z) : Z := z mod 2 ^ 32.

Definition int64 (z : Z) : Z := (z + 2 ^ 63) mod 2 ^ 64 - 2 ^ 63.

(** [a % b] on numpy integer scalars. *)
Definition np_mod (a b : Z) : Z := if b =? 0 then 0 else a mod b.

(** [a[z]] on a one-dimensional array. *)
Definition ndarray_get {A : Type} (a : list A) (z : Z) : outcome A :=
  let n := Z.of_nat (length a) in
  let z' := if z <? 0 then z + n else z in
  if (0 <=? z') && (z' <? n)
  then match a !! Z.to_nat z' with
       | Some x => Ret x
       | None => Raise IndexError
       end
  else Raise IndexError.

(** [a[z] = x] on a one-dimensional array. *)
Definition ndarray_set {A : Type} (a : list A) (z : Z) (x : A) : outcome (list A) :=
  let n := Z.of_nat (length a) in
  let z' := if z <? 0 then z + n else z in
  if (0 <=? z') && (z' <? n)
  then Ret (<[Z.to_nat z' := x]> a)
  else Raise IndexError.

(** [range(n)] *)
Definition range (n : Z) : list Z := Z.of_nat <$> seq 0 (Z.to_nat n).

(** ** Fixed-width unicode arrays *)

Definition NUL : Ascii.ascii := Ascii.zero.

(** A string as an element of an array of dtype ['U<n>'] gives it back,
    for a width [n] that is at least its length: without the NUL
    characters that end it. *)
Fixpoint np_str (s : string) : string :=
  match s with
  | EmptyString => EmptyString
  | String c s' =>
      match np_str s' with
      | EmptyString =>
          if Ascii.eqb c NUL then EmptyString else String c EmptyString
      | String c' r => String c (String c' r)
      end
  end.

(** [np.array(itos, dtype='U' + str(max_str_len))], the width being the
    length of the longest element. *)
Definition np_array (itos : list string) : list string := np_str <$> itos.

(** ** string_hash *)

Definition ord (c : Ascii.ascii) : Z := Z.of_N (Ascii.N_of_ascii c).

Definition P : Z := 1009.

(** One turn of the loop body of [string_hash]. *)
Definition hash_step (h : Z) (c : Ascii.ascii) : Z :=
  let h := Z.shiftl h 10 + h + ord c * P in
  Z.land h 0xFFFFFFFF.

Fixpoint hash_loop (h : Z) (x : string) : Z :=
  match x with
  | EmptyString => h
  | String c x' => hash_loop (hash_step h c) x'
  end.

Definition string_hash (x : string) : Z := uint32 (hash_loop 0 x).

(** The recurrence as the specification words it. *)
Fixpoint spec_hash_fold (h : Z) (x : string) : Z :=
  match x with
  | EmptyString => h
  | String c x' => spec_hash_fold ((h * 1025 + ord c * 1009) mod 2 ^ 32) x'
  end.

(** ** HashTable *)

Module HashTable.

Definition EMPTY_BUCKET : Z := 0.

Record t : Type := mk {
  itos : list string;
  table : list Z;
  table_size : Z
}.

(** [max(len(x) for x in itos)]: fails on an empty sequence. *)
Definition max_str_len (itos : list string) : outcome Z :=
  match itos with
  | [] => Raise ValueError
  | x :: xs =>
      Ret (fold_left (fun m y => Z.max m (Z.of_nat (String.length y)))
                     xs (Z.of_nat (String.length x)))
  end.

(** The [while] loop of [_build]: one unit of fuel per test of the
    loop condition. *)
Fixpoint probe (fuel : nat) (table : list Z) (table_size : Z)
         (hash bucket : Z) : outcome Z :=
  match fuel with
  | O => Diverge
  | S fuel' =>
      v <- ndarray_get table bucket ;;
      if v =? EMPTY_BUCKET then Ret bucket
      else
        let hash := int64 (hash + 7) in
        let bucket := np_mod hash table_size in
        probe fuel' table table_size hash bucket
  end.

(** The [for] loop of [_build], from ordinal [i] on.  [self.itos[i] =
    word] writes into the fixed-width array. *)
Fixpoint build_from (fuel : nat) (i : Z) (words : list string) (self : t)
  : outcome t :=
  match words with
  | [] => Ret self
  | word :: rest =>
      let hash := string_hash word in
      let bucket := np_mod hash (table_size self) in
      bucket <- probe fuel (table self) (table_size self) hash bucket ;;
      itos' <- ndarray_set (itos self) i (np_str word) ;;
      table' <- ndarray_set (table self) bucket (1 + i) ;;
      build_from fuel (i + 1) rest (mk itos' table' (table_size self))
  end.

Definition _build (fuel : nat) (self : t) (itos : list string) : outcome t :=
  build_from fuel 0 itos self.

(** [HashTable(itos)]: the branch of [__init__] that builds. *)
Definition __init__ (fuel : nat) (itos : list string) : outcome t :=
  _ <- max_str_len itos ;;
  let table_size := Z.of_nat (length itos) * 2 in
  let table := replicate (Z.to_nat table_size) 0 in
  _build fuel (mk (np_array itos) table table_size) itos.

(** [HashTable(itos, table)]: the branch that adopts stored arrays. *)
Definition load (itos : list string) (table : list Z) : t :=
  mk itos table (Z.of_nat (length table)).

(** The [for] loop of [_find] over the remaining probe counts. *)
Fixpoint find_loop (self : t) (key : string) (hash : Z) (probes : list Z)
  : outcome (option Z) :=
  match probes with
  | [] => Ret None
  | probe_count :: rest =>
      let bucket := np_mod (int64 (hash + 7 * probe_count)) (table_size self) in
      key_index <- ndarray_get (table self) bucket ;;
      if key_index =? EMPTY_BUCKET then Ret None
      else
        s <- ndarray_get (itos self) (key_index - 1) ;;
        if String.eqb s key then Ret (Some (key_index - 1))
        else find_loop self key hash rest
  end.

Definition _find (self : t) (key : string) : outcome (option Z) :=
  find_loop self key (string_hash key) (range (table_size self)).

Definition __getitem__ (self : t) (key : string) : outcome Z :=
  found <- _find self key ;;
  match found with
  | None => Raise KeyError
  | Some j => Ret j
  end.

Definition __contains__ (self : t) (key : string) : outcome bool :=
  found <- _find self key ;;
  Ret (match found with None => false | Some _ => true end).

(** [get(key, default)]: the ordinal, or [default] as it was passed. *)
Definition get {A : Type} (self : t) (key : string) (default : A)
  : outcome (Z + A) :=
  found <- _find self key ;;
  match found with
  | None => Ret (inr default)
  | Some j => Ret (inl j)
  end.

(** What a method may hand back to its caller. *)
Inductive pyval : Type :=
| PyBool (b : bool)
| PyInt (z : Z)
| PyStrArray (a : list string)
| PyBoolArray (a : list bool)
| PyShapeMismatch.

(** [return self.itos] *)
Definition __len__ (self : t) : pyval := PyStrArray (itos self).

(** [a == b] on two arrays of strings: element by element, an array
    of length one being stretched to the length of the other.  For
    shapes that do not fit, the answer of numpy depends on its version
    and is left as [PyShapeMismatch]. *)
Definition ndarray_eq (a b : list string) : pyval :=
  if (length a =? length b)%nat then PyBoolArray (zip_with String.eqb a b)
  else match a, b with
       | [x], _ => PyBoolArray ((fun y => String.eqb x y) <$> b)
       | _, [y] => PyBoolArray ((fun x => String.eqb x y) <$> a)
       | _, _ => PyShapeMismatch
       end.

(** The right operand of [==] is any object. *)
Inductive pyobj : Type :=
| Obj (h : t)
| NotAHashTable.

(** [isinstance(other, HashTable) and self.itos == other.itos] *)
Definition __eq__ (self : t) (other : pyobj) : pyval :=
  match other with
  | NotAHashTable => PyBool false
  | Obj o => ndarray_eq (itos self) (itos o)
  end.

End HashTable.

(** ** Text lines *)

(** [str.isspace] on the characters a [string] can hold. *)
Definition is_space (c : Ascii.ascii) : bool :=
  let n := ord c in
  ((9 <=? n) && (n <=? 13)) || ((28 <=? n) && (n <=? 32))
  || (n =? 133) || (n =? 160).

(** [bytes.isspace] *)
Definition is_space_bytes (c : Ascii.ascii) : bool :=
  let n := ord c in
  ((9 <=? n) && (n <=? 13)) || (n =? 32).

Fixpoint drop_while {A : Type} (p : A -> bool) (l : list A) : list A :=
  match l with
  | [] => []
  | x :: l' => if p x then drop_while p l' else l
  end.

(** [line.rstrip()] *)
Definition rstrip (space : Ascii.ascii -> bool) (line : string) : string :=
  String.string_of_list_ascii
    (rev (drop_while space (rev (String.list_ascii_of_string line)))).

(** [line.split(sep)] for a separator of one character. *)
Fixpoint split (sep : Ascii.ascii) (line : string) : list string :=
  match line with
  | EmptyString => [EmptyString]
  | String c line' =>
      if Ascii.eqb c sep then EmptyString :: split sep line'
      else match split sep line' with
           | [] => [String c EmptyString]
           | w :: ws => String c w :: ws
           end
  end.

Definition MAX_WORD_LENGTH : Z := 100.

(** ** Vectors *)

Section VectorTables.

(** The components are 32-bit floats.  Only a zero, the sum, the
    division by a count and [float], the reading of a numeral as it is
    stored in the matrix, are used; they are left open. *)
Variable F : Type.
Variable fzero : F.
Variable fadd : F -> F -> F.
Variable fdiv : F -> Z -> F.
Variable float : string -> option F.

(** [word.decode('utf-8')], used on lines read as bytes. *)
Variable decode_utf8 : string -> option string.

(** A tensor of shape [(dim,)] or of shape [(rows, dim)]. *)
Inductive tensor : Type :=
| Row (r : list F)
| Matrix (rs : list (list F)).

(** [torch.Tensor(rows, cols)]: the cells hold whatever [mem] held. *)
Definition Tensor (mem : nat -> F) (rows cols : nat) : list (list F) :=
  (fun r : nat => (fun c : nat => mem (r * cols + c)%nat) <$> seq 0 cols) <$> seq 0 rows.

Definition zero_rows (rs : list (list F)) : list (list F) :=
  (fun r : list F => (fun _ : F => fzero) <$> r) <$> rs.

(** [torch.Tensor.zero_] *)
Definition zero_ (v : tensor) : tensor :=
  match v with
  | Row r => Row ((fun _ : F => fzero) <$> r)
  | Matrix rs => Matrix (zero_rows rs)
  end.

Record Vectors : Type := mkVectors {
  stoi : HashTable.t;
  vectors : list (list F);
  dim : nat;
  unk_init : tensor -> tensor
}.

Definition itos (self : Vectors) : list string := HashTable.itos (stoi self).

(** [Vectors.__getitem__] *)
Definition getitem (mem : nat -> F) (self : Vectors) (token : string)
  : outcome tensor :=
  found <- HashTable.__contains__ (stoi self) token ;;
  if (found : bool) then
    j <- HashTable.__getitem__ (stoi self) token ;;
    r <- ndarray_get (vectors self) j ;;
    Ret (Row r)
  else Ret (unk_init self (Matrix (Tensor mem 1 (dim self)))).

(** *** The line loop of [Vectors.cache] *)

Record loader : Type := mkLoader {
  l_itos : list string;
  l_vectors : option (list (list F));
  l_dim : option Z;
  l_i : Z;
  l_warnings : list string
}.

Definition loader0 : loader := mkLoader [] None None 0 [].

Fixpoint floats (entries : list string) : outcome (list F) :=
  match entries with
  | [] => Ret []
  | x :: entries' =>
      match float x with
      | None => Raise ValueError
      | Some v => vs <- floats entries' ;; Ret (v :: vs)
      end
  end.

(** The tail of the loop body, after the checks on the field count. *)
Definition store_line (binary_lines : bool) (word : string)
           (entries : list string) (st : loader) : outcome loader :=
  let decoded := if binary_lines then decode_utf8 word else Some word in
  match decoded with
  | None => Ret st
  | Some word =>
      if MAX_WORD_LENGTH <? Z.of_nat (String.length word) then Ret st
      else
        r <- floats entries ;;
        match l_vectors st with
        | None => Raise TypeError
        | Some vectors =>
            vectors' <- ndarray_set vectors (l_i st) r ;;
            Ret (mkLoader (l_itos st ++ [word]) (Some vectors') (l_dim st)
                          (l_i st + 1) (l_warnings st))
        end
  end.

(** One turn of the loop body; [nlines] is [len(lines)]. *)
Definition read_line (binary_lines : bool) (nlines : nat) (line : string)
           (st : loader) : outcome loader :=
  let fields :=
    split " "%char (rstrip (if binary_lines then is_space_bytes else is_space) line) in
  match fields with
  | [] => Raise IndexError
  | word :: entries =>
      let n := Z.of_nat (length entries) in
      match l_dim st with
      | None =>
          if 1 <? n then
            let vectors := replicate nlines (replicate (Z.to_nat n) fzero) in
            store_line binary_lines word entries
              (mkLoader (l_itos st) (Some vectors) (Some n) (l_i st)
                        (l_warnings st))
          else if n =? 1 then
            Ret (mkLoader (l_itos st) (l_vectors st) (l_dim st) (l_i st)
                          (l_warnings st ++ [word]))
          else Raise RuntimeError
      | Some d =>
          if n =? 1 then
            Ret (mkLoader (l_itos st) (l_vectors st) (l_dim st) (l_i st)
                          (l_warnings st ++ [word]))
          else if negb (d =? n) then Raise RuntimeError
          else store_line binary_lines word entries st
      end
  end.

Fixpoint read_lines (binary_lines : bool) (nlines : nat)
         (lines : list string) (st : loader) : outcome loader :=
  match lines with
  | [] => Ret st
  | line :: lines' =>
      st' <- read_line binary_lines nlines line st ;;
      read_lines binary_lines nlines lines' st'
  end.

Definition load_lines (binary_lines : bool) (lines : list string)
  : outcome loader :=
  read_lines binary_lines (length lines) lines loader0.

(** What [cache] does with the lines of a file it has to parse: the
    line loop, the cut of the matrix to the rows in use, and the build
    of the index over the surviving keys. *)
Definition cache_lines (fuel : nat) (binary_lines : bool)
           (lines : list string) (unk : tensor -> tensor) : outcome Vectors :=
  st <- load_lines binary_lines lines ;;
  match l_vectors st, l_dim st with
  | Some vectors, Some d =>
      let vectors := take (length (l_itos st)) vectors in
      stoi <- HashTable.__init__ fuel (l_itos st) ;;
      Ret (mkVectors stoi vectors (Z.to_nat d) unk)
  | _, _ => Raise AttributeError
  end.

(** *** CharNGram *)

Definition chars (token : string) : list string :=
  ["#BEGIN#"%string]
  ++ ((fun c : Ascii.ascii => String c EmptyString) <$> String.list_ascii_of_string token)
  ++ ["#END#"%string].

(** [[chars[i:(i + n)] for i in range(len(chars) - n + 1)]] *)
Definition grams (n : nat) (chars : list string) : list (list string) :=
  (fun i : Z => take n (drop (Z.to_nat i) chars))
  <$> range (Z.of_nat (length chars) - Z.of_nat n + 1).

(** ['{}gram-{}'.format(n, ''.join(gram))] *)
Definition gram_key (n : nat) (gram : list string) : string :=
  (pretty n ++ "gram-" ++ String.concat "" gram)%string.

(** [vector += row] for [vector] of shape [(1, dim)]. *)
Definition iadd (vector : list (list F)) (row : list F)
  : outcome (list (list F)) :=
  match row with
  | [x] => Ret ((fun r : list F => (fun y : F => fadd y x) <$> r) <$> vector)
  | _ =>
      if forallb (fun r => (length r =? length row)%nat) vector
      then Ret ((fun r : list F => zip_with fadd r row) <$> vector)
      else Raise RuntimeError
  end.

(** The inner [for gram in grams] loop. *)
Fixpoint add_grams (self : Vectors) (n : nat) (gs : list (list string))
         (acc : list (list F) * Z) : outcome (list (list F) * Z) :=
  match gs with
  | [] => Ret acc
  | gram :: gs' =>
      let key := gram_key n gram in
      found <- HashTable.__contains__ (stoi self) key ;;
      if (found : bool) then
        j <- HashTable.__getitem__ (stoi self) key ;;
        r <- ndarray_get (vectors self) j ;;
        vector <- iadd (fst acc) r ;;
        add_grams self n gs' (vector, snd acc + 1)
      else add_grams self n gs' acc
  end.

(** The outer [for n in [2, 3, 4]] loop. *)
Fixpoint add_sizes (self : Vectors) (ns : list nat) (cs : list string)
         (acc : list (list F) * Z) : outcome (list (list F) * Z) :=
  match ns with
  | [] => Ret acc
  | n :: ns' =>
      acc' <- add_grams self n (grams n cs) acc ;;
      add_sizes self ns' cs acc'
  end.

(** [CharNGram.__getitem__] *)
Definition charngram_getitem (mem : nat -> F) (self : Vectors)
           (token : string) : outcome tensor :=
  let vector := zero_rows (Tensor mem 1 (dim self)) in
  if String.eqb token "<unk>" then Ret (unk_init self (Matrix vector))
  else
    acc <- add_sizes self [2; 3; 4]%nat (chars token) (vector, 0) ;;
    let (vector, num_vectors) := acc : list (list F) * Z in
    if 0 <? num_vectors
    then Ret (Matrix ((fun r : list F => (fun x : F => fdiv x num_vectors) <$> r) <$> vector))
    else Ret (unk_init self (Matrix vector)).

End VectorTables.

Arguments Row {F} r.
Arguments Matrix {F} rs.
Arguments Tensor {F} mem rows cols.
Arguments zero_rows {F} fzero rs.
Arguments zero_ {F} fzero v.
Arguments mkVectors {F} stoi vectors dim unk_init.
Arguments stoi {F} v.
Arguments vectors {F} v.
Arguments dim {F} v.
Arguments unk_init {F} v.
Arguments itos {F} self.
Arguments getitem {F} mem self token.
Arguments mkLoader {F} l_itos l_vectors l_dim l_i l_warnings.
Arguments l_itos {F} l.
Arguments l_vectors {F} l.
Arguments l_dim {F} l.
Arguments l_i {F} l.
Arguments l_warnings {F} l.
Arguments loader0 {F}.
Arguments floats {F} float entries.
Arguments store_line {F} float decode_utf8 binary_lines word entries st.
Arguments read_line {F} fzero float decode_utf8 binary_lines nlines line st.
Arguments read_lines {F} fzero float decode_utf8 binary_lines nlines lines st.
Arguments load_lines {F} fzero float decode_utf8 binary_lines lines.
Arguments cache_lines {F} fzero float decode_utf8 fuel binary_lines lines unk.
Arguments iadd {F} fadd vector row.
Arguments add_grams {F} fadd self n gs acc.
Arguments add_sizes {F} fadd self ns cs acc.
Arguments charngram_getitem {F} fzero fadd fdiv mem self token.

(** ** Rationals as components, for the concrete scenarios *)

Definition digit (c : Ascii.ascii) : option Z :=
  let n := ord c in
  if (48 <=? n) && (n <=? 57) then Some (n - 48) else None.

(** Digits with at most one point: [mant] collects the digits read,
    [scale] is the power of ten to divide by once the point was seen. *)
Fixpoint decimal (s : string) (mant : Z) (scale : option positive)
  : option Q :=
  match s with
  | EmptyString => Some (Qred (mant # default 1%positive scale))
  | String c s' =>
      if Ascii.eqb c "."%char then
        match scale with
        | None => decimal s' mant (Some 1%positive)
        | Some _ => None
        end
      else
        match digit c with
        | None => None
        | Some d =>
            decimal s' (mant * 10 + d)
                    ((fun k => (k * 10)%positive) <$> scale)
        end
  end.

(** A reading of plain decimal numerals, in the place of [float]. *)
Definition Qfloat (s : string) : option Q :=
  match s with
  | EmptyString => None
  | String c s' =>
      if Ascii.eqb c "-"%char then Qopp <$> decimal s' 0 None
      else decimal s 0 None
  end.

Definition Qdiv_count (x : Q) (n : Z) : Q := Qred (x / inject_Z n).

Definition Qadd (x y : Q) : Q := Qred (x + y).

Definition newline : string := String (Ascii.ascii_of_nat 10) EmptyString.

Definition cat_dog_lines : list string :=
  [("cat 1.0 2.0" ++ newline)%string; ("dog 3.0 4.0" ++ newline)%string].

Definition cat_badtoken_lines : list string :=
  [("cat 1.0 2.0" ++ newline)%string; ("badtoken 5.0" ++ newline)%string].

Definition cat_dog : list string := ["cat"; "dog"]%string.

Definition cat_dog_table : HashTable.t :=
  HashTable.mk cat_dog [1; 0; 2; 0] 4.

(** The table of the two lines above, with the default [unk_init]. *)
Definition cat_dog_vectors : Vectors Q :=
  mkVectors cat_dog_table [[1%Q; 2%Q]; [3%Q; 4%Q]] 2 (zero_ 0%Q).

Definition empty_table : HashTable.t := HashTable.load [] [].

(** ** Dictionaries and counters *)

(** A Python [dict] with string keys: the pairs in the order in which
    their keys were first set, no key twice. *)
Module Dict.

Definition t (V : Type) : Type := list (string * V).

(** [d.get(k)] *)
Fixpoint get {V : Type} (d : t V) (k : string) : option V :=
  match d with
  | [] => None
  | (k', v) :: d' => if String.eqb k' k then Some v else get d' k
  end.

(** [d[k] = v] *)
Fixpoint set {V : Type} (d : t V) (k : string) (v : V) : t V :=
  match d with
  | [] => [(k, v)]
  | (k', v') :: d' =>
      if String.eqb k' k then (k', v) :: d' else (k', v') :: set d' k v
  end.

(** [k in d] *)
Definition contains {V : Type} (d : t V) (k : string) : bool :=
  match get d k with
  | Some _ => true
  | None => false
  end.

(** [d.update(other)] *)
Definition update {V : Type} (d other : t V) : t V :=
  fold_left (fun d kv => set d (fst kv) (snd kv)) other d.

End Dict.

(** [collections.Counter] *)
Module Counter.

Definition t : Type := Dict.t Z.

(** [c[k]]: a missing key counts 0 and is not added. *)
Definition getitem (c : t) (k : string) : Z := default 0 (Dict.get c k).

(** [c.update(iterable)] *)
Definition update (c : t) (iterable : list string) : t :=
  fold_left (fun c elem => Dict.set c elem (getitem c elem + 1)) iterable c.

(** [c.subtract(mapping)] *)
Definition subtract (c : t) (mapping : Dict.t Z) : t :=
  fold_left (fun c kv => Dict.set c (fst kv) (getitem c (fst kv) - snd kv))
            mapping c.

End Counter.

(** ** Sorting *)

(** [list.sort] is stable; so is this insertion sort: an element goes
    in front of the first one it does not come after. *)
Fixpoint insert_sorted {A : Type} (le : A -> A -> bool) (x : A) (l : list A)
  : list A :=
  match l with
  | [] => [x]
  | y :: l' => if le x y then x :: l else y :: insert_sorted le x l'
  end.

Definition stable_sort {A : Type} (le : A -> A -> bool) (l : list A) : list A :=
  fold_right (insert_sorted le) [] l.

(** [enumerate(l)] *)
Definition enumerate {A : Type} (l : list A) : list (Z * A) :=
  imap (fun i x => (Z.of_nat i, x)) l.

(** ** Vocab *)

Module Vocab.

Section WithVectors.

Variable F : Type.

Record t : Type := mk {
  freqs : Counter.t;
  stoi : Dict.t Z;
  itos : list string;
  vectors : option (list (list F))
}.

(** The loop of [__init__] over the sorted words. *)
Fixpoint add_words (min_freq : Z) (max_size : option Z)
         (words_and_frequencies : list (string * Z))
         (itos : list string) (stoi : Dict.t Z) : list string * Dict.t Z :=
  match words_and_frequencies with
  | [] => (itos, stoi)
  | (word, freq) :: rest =>
      if (freq <? min_freq)
         || match max_size with
            | Some m => Z.of_nat (length itos) =? m
            | None => false
            end
      then (itos, stoi)
      else
        let itos := itos ++ [word] in
        let stoi := Dict.set stoi word (Z.of_nat (length itos) - 1) in
        add_words min_freq max_size rest itos stoi
  end.

(** [sorted(counter.items(), key=lambda tup: tup[0])] followed by
    [.sort(key=lambda tup: tup[1], reverse=True)]. *)
Definition sorted_words (counter : Counter.t) : list (string * Z) :=
  let words_and_frequencies :=
    stable_sort (fun a b => String.leb (fst a) (fst b)) counter in
  stable_sort (fun a b => snd b <=? snd a) words_and_frequencies.

(** [Vocab(counter, max_size, min_freq, specials)], no vectors given. *)
Definition __init__ (counter : Counter.t) (max_size : option Z)
           (min_freq : Z) (specials : list string) : t :=
  let freqs := counter in
  let min_freq := Z.max min_freq 1 in
  let counter := Counter.update counter specials in
  let stoi :=
    Dict.update []
      (fold_left (fun d it => Dict.set d (snd it) (fst it))
                 (enumerate specials) []) in
  let itos := specials in
  let counter :=
    Counter.subtract counter
      (fold_left (fun d tok => Dict.set d tok (Counter.getitem counter tok))
                 specials []) in
  let max_size := (fun m => m + Z.of_nat (length itos)) <$> max_size in
  let '(itos, stoi) :=
    add_words min_freq max_size (sorted_words counter) itos stoi in
  mk freqs stoi itos None.

Definition __len__ (self : t) : Z := Z.of_nat (length (itos self)).

(** The loop of [extend]. *)
Fixpoint extend_with (words : list string) (itos : list string)
         (stoi : Dict.t Z) : list string * Dict.t Z :=
  match words with
  | [] => (itos, stoi)
  | w :: words' =>
      if Dict.contains stoi w then extend_with words' itos stoi
      else
        let itos := itos ++ [w] in
        extend_with words' itos (Dict.set stoi w (Z.of_nat (length itos) - 1))
  end.

(** [extend(v, sort)] *)
Definition extend (self v : t) (sort : bool) : t :=
  let words := if sort then stable_sort String.leb (itos v) else itos v in
  let '(itos', stoi') := extend_with words (itos self) (stoi self) in
  mk (freqs self) stoi' itos' (vectors self).

(** [self.vectors[i] = value] on a matrix of rows of [dim] components:
    a leading axis of length one of [value] is dropped; what is left
    has [dim] components, or one that is repeated. *)
Definition assign_row (dim : nat) (value : tensor F) : outcome (list F) :=
  let row :=
    match value with
    | Row r => Some r
    | Matrix [r] => Some r
    | Matrix _ => None
    end in
  match row with
  | None => Raise RuntimeError
  | Some r =>
      if (length r =? dim)%nat then Ret r
      else match r with
           | [x] => Ret (replicate dim x)
           | _ => Raise RuntimeError
           end
  end.

(** The loop of [set_vectors]; [stoi_get token] is
    [stoi.get(token, None)]. *)
Fixpoint set_rows (stoi_get : string -> outcome (option Z))
         (table : list (list F)) (dim : nat)
         (unk_init : tensor F -> tensor F)
         (words : list (Z * string)) (m : list (list F))
  : outcome (list (list F)) :=
  match words with
  | [] => Ret m
  | (i, token) :: rest =>
      wv_index <- stoi_get token ;;
      value <- match wv_index with
               | Some j => r <- ndarray_get table j ;; Ret (Row r)
               | None => r <- ndarray_get m i ;; Ret (unk_init (Row r))
               end ;;
      r <- assign_row dim value ;;
      m <- ndarray_set m i r ;;
      set_rows stoi_get table dim unk_init rest m
  end.

(** [set_vectors(stoi, vectors, dim, unk_init)] *)
Definition set_vectors (mem : nat -> F) (self : t)
           (stoi_get : string -> outcome (option Z))
           (table : list (list F)) (dim : nat)
           (unk_init : tensor F -> tensor F) : outcome t :=
  m <- set_rows stoi_get table dim unk_init (enumerate (itos self))
                (Tensor mem (length (itos self)) dim) ;;
  Ret (mk (freqs self) (stoi self) (itos self) (Some m)).

End WithVectors.

End Vocab.

Arguments Vocab.mk {F} freqs stoi itos vectors.
Arguments Vocab.freqs {F} t.
Arguments Vocab.stoi {F} t.
Arguments Vocab.itos {F} t.
Arguments Vocab.vectors {F} t.
Arguments Vocab.__len__ {F} self.
Arguments Vocab.extend {F} self v sort.
Arguments Vocab.assign_row {F} dim value.
Arguments Vocab.set_rows {F} stoi_get table dim unk_init words m.
Arguments Vocab.set_vectors {F} mem self stoi_get table dim unk_init.

(** [stoi.get(token, None)] when [stoi] is an index of the kind above. *)
Definition index_get (stoi : HashTable.t) (token : string)
  : outcome (option Z) :=
  found <- HashTable.get stoi token tt ;;
  Ret (match found with
       | inl j => Some j
       | inr _ => None
       end).


(** ** Notions used to state the properties *)

(** The place of the first occurrence of [key] in [keys], as
    [list.index] would give it. *)
Fixpoint index_of (key : string) (keys : list string) : option nat :=
  match keys with
  | [] => None
  | k :: keys' =>
      if String.eqb k key then Some O else S <$> index_of key keys'
  end.

Definition first_at (keys : list string) (key : string) (i : nat) : Prop :=
  keys !! i = Some key /\ forall j, (j < i)%nat -> keys !! j <> Some key.

(** Whether the last character of a string is NUL. *)
Fixpoint ends_in_nul (s : string) : bool :=
  match s with
  | EmptyString => false
  | String c s' =>
      match s' with
      | EmptyString => Ascii.eqb c NUL
      | String _ _ => ends_in_nul s'
      end
  end.

(** Key lists in which no key ends in a NUL character. *)
Definition plain_keys (keys : list string) : Prop :=
  Forall (fun k : string => ends_in_nul k = false) keys.

(** The bucket reached from hash [h] at attempt [p] in a table of
    [T] buckets. *)
Definition slot (T h p : Z) : nat := Z.to_nat ((h + 7 * p) mod T).

(** The bucket array after the first [i] of [n] keys were placed. *)
Record layout (n i : nat) (tb : list Z) : Prop := mkLayout {
  lay_len : length tb = (2 * n)%nat;
  lay_range : forall b v, tb !! b = Some v -> 0 <= v <= Z.of_nat i;
  lay_once : forall j, (j < i)%nat ->
    exists b, tb !! b = Some (1 + Z.of_nat j)
              /\ forall b', tb !! b' = Some (1 + Z.of_nat j) -> b' = b
}.

(** Every placed key sits at the end of a run of occupied buckets of
    its own probe sequence, all of them taken by earlier keys. *)
Definition paths (fuel : nat) (keys : list string) (i : nat) (tb : list Z) : Prop :=
  forall j w, (j < i)%nat -> keys !! j = Some w ->
    let T := Z.of_nat (length keys) * 2 in
    exists p, 0 <= p < Z.of_nat fuel
      /\ tb !! slot T (string_hash w) p = Some (1 + Z.of_nat j)
      /\ forall q, 0 <= q < p ->
           exists v, tb !! slot T (string_hash w) q = Some v
                     /\ 1 <= v <= Z.of_nat j.

(** What a finished build looks like. *)
Record built (fuel : nat) (keys : list string) (ht : HashTable.t) : Prop := mkBuilt {
  built_nonempty : keys <> [];
  built_itos : HashTable.itos ht = np_array keys;
  built_size : HashTable.table_size ht = Z.of_nat (length keys) * 2;
  built_layout : layout (length keys) (length keys) (HashTable.table ht);
  built_paths : Z.of_nat fuel <= 2 ^ 59 ->
                paths fuel keys (length keys) (HashTable.table ht)
}.

(** The number of buckets of a table over [keys]. *)
Definition capacity (keys : list string) : Z := Z.of_nat (length keys) * 2.

(** The synthetic sub-keys of a token, in the order the loops of
    [CharNGram.__getitem__] form them. *)
Definition sub_keys (token : string) : list string :=
  (gram_key 2 <$> grams 2 (chars token))
  ++ (gram_key 3 <$> grams 3 (chars token))
  ++ (gram_key 4 <$> grams 4 (chars token)).

(** The row of the matrix that belongs to [key], if [key] is in the
    key table. *)
Definition row_of {F : Type} (self : Vectors F) (key : string)
  : option (list F) :=
  match index_of key (itos self) with
  | Some i => vectors self !! i
  | None => None
  end.

(** The row of the matrix at the ordinal that the index finds for
    [key], if it finds one: [key in self.stoi], then
    [self.vectors[self.stoi[key]]]. *)
Definition found_row {F : Type} (self : Vectors F) (key : string)
  : option (list F) :=
  match HashTable._find (stoi self) key with
  | Ret (Some j) => vectors self !! Z.to_nat j
  | _ => None
  end.

(** The component-wise sum of [rows] on top of [r0], and their mean over
    a zero row of [d] components. *)
Definition sum_rows {F : Type} (fadd : F -> F -> F)
           (rows : list (list F)) (r0 : list F) : list F :=
  fold_left (zip_with fadd) rows r0.

Definition mean_row {F : Type} (fzero : F) (fadd : F -> F -> F)
           (fdiv : F -> Z -> F) (d : nat) (rows : list (list F)) : list F :=
  (fun x : F => fdiv x (Z.of_nat (length rows)))
  <$> sum_rows fadd rows (replicate d fzero).

(** A loader that has read [k] of the [nlines] lines of a file. *)
Record loader_ok {F : Type} (nlines k : nat) (st : loader F) : Prop := mkLoaderOk {
  ok_count : l_i st = Z.of_nat (length (l_itos st));
  ok_read : (length (l_itos st) <= k)%nat;
  ok_words :
    Forall (fun w : string => Z.of_nat (String.length w) <= MAX_WORD_LENGTH)
           (l_itos st);
  ok_matrix :
    match l_vectors st, l_dim st with
    | None, None => l_itos st = []
    | Some m, Some d =>
        1 < d /\ length m = nlines
        /\ Forall (fun r : list F => length r = Z.to_nat d) m
    | _, _ => False
    end
}.

(** The fields of a line, as the loop of [cache] cuts them. *)
Definition fields (binary_lines : bool) (line : string) : list string :=
  split " "%char
    (rstrip (if binary_lines then is_space_bytes else is_space) line).

(** Row [k] of the matrix holds the values read from a line whose first
    field is key [k]. *)
Definition rows_from_lines {F : Type} (float : string -> option F)
           (decode_utf8 : string -> option string) (binary_lines : bool)
           (lines : list string) (keys : list string) (m : list (list F))
  : Prop :=
  forall (k : nat) (w : string) (r : list F),
    keys !! k = Some w -> m !! k = Some r ->
    exists line word entries,
      line ∈ lines
      /\ fields binary_lines line = word :: entries
      /\ (if binary_lines then decode_utf8 word else Some word) = Some w
      /\ floats float entries = Ret r.

(** What the line loop keeps true after [k] of the lines [all]. *)
Definition loader_inv {F : Type} (float : string -> option F)
           (decode_utf8 : string -> option string)
           (binary_lines : bool) (all : list string)
           (nlines k : nat) (st : loader F) : Prop :=
  loader_ok nlines k st
  /\ forall m, l_vectors st = Some m ->
       rows_from_lines float decode_utf8 binary_lines all (l_itos st) m.

(** [stoi] and [itos] of a vocabulary are inverse to each other. *)
Definition index_consistent (itos : list string) (stoi : Dict.t Z) : Prop :=
  (forall i w, itos !! i = Some w -> Dict.get stoi w = Some (Z.of_nat i))
  /\ (forall w z, Dict.get stoi w = Some z ->
        0 <= z /\ itos !! Z.to_nat z = Some w).

(** The order in which [Vocab] takes the words of a counter. *)
Definition before_in_vocab (a b : string * Z) : Prop :=
  snd b < snd a \/ (snd a = snd b /\ String.leb (fst a) (fst b) = true).


(** The last place of [tok] in [l]. *)
Definition last_at (l : list string) (tok : string) (i : nat) : Prop :=
  l !! i = Some tok /\ forall j, (i < j)%nat -> l !! j <> Some tok.



(** ** Concrete inputs *)

Definition cat_dog_cat : list string := ["cat"; "dog"; "cat"]%string.

Definition cat_dog_cat_table : HashTable.t :=
  HashTable.mk cat_dog_cat [0; 0; 2; 0; 1; 3] 6.

(** The key a followed by a NUL character, and a key list that holds
    it. *)
Definition a_nul : string := String "a"%char (String NUL EmptyString).

Definition nul_keys : list string := [a_nul; "b"%string; "c"%string].

Definition seven_keys : list string :=
  ["a"; "h"; "o"; "b"; "c"; "d"; "e"]%string.

(** The loader after the line "cat 1.0 2.0" of a file of two lines. *)
Definition after_cat : loader Q :=
  mkLoader ["cat"]%string (Some [[1%Q; 2%Q]; [0%Q; 0%Q]]) (Some 2) 1 [].

Definition ngram_keys : list string :=
  ["2gram-#BEGIN#a"; "2gram-a#END#"; "a"]%string.

Definition ngram_table : HashTable.t :=
  HashTable.mk ngram_keys [0; 3; 2; 0; 1; 0] 6.

(** A character n-gram table in which the token a is itself a key. *)
Definition ngram_vectors : Vectors Q :=
  mkVectors ngram_table [[1%Q; 2%Q]; [3%Q; 4%Q]; [9%Q; 9%Q]] 2 (zero_ 0%Q).

(** A character n-gram table whose one key is a sub-key of the token
    <unk>. *)
Definition unk_gram_vectors : Vectors Q :=
  mkVectors (HashTable.mk ["2gram-<u"]%string [0; 1] 2) [[5%Q; 6%Q]] 2
            (zero_ 0%Q).

(** Unspecified contents of freshly reserved memory. *)
Definition stale : nat -> Q := fun _ => 7%Q.

(** The loader after the two lines cat and dog. *)
Definition cat_dog_loader : loader Q :=
  mkLoader cat_dog (Some [[1%Q; 2%Q]; [3%Q; 4%Q]]) (Some 2) 2 [].

(** A file that holds nothing but a line of two counts. *)
Definition header_lines : list string :=
  [("400000 300" ++ newline)%string].

(** A token of 101 characters. *)
Definition long_token : string :=
  String.concat "" (replicate 101 "a"%string).

(** Counts of words, and the two special tokens. *)
Definition word_counts : Counter.t :=
  [("the", 5); ("cat", 2); ("a", 5); ("dog", 2); ("zebra", 1); ("<pad>", 3)]%string.

Definition unk_pad : list string := ["<unk>"; "<pad>"]%string.

(** A vocabulary that brings the words dog, zebra, ant, zebra. *)
Definition more_words : Vocab.t Q :=
  Vocab.mk [] [] ["dog"; "zebra"; "ant"; "zebra"]%string None.

(** * Properties *)

(** ** Arithmetic of the embedding *)

Lemma int64_small z : - 2 ^ 63 <= z < 2 ^ 63 -> int64 z = z.
Proof.
  intros Hz. unfold int64.
  rewrite Z.mod_small by lia. lia.
Qed.

Lemma np_mod_pos a b : 0 < b -> np_mod a b = a mod b.
Proof.
  intros Hb. unfold np_mod.
  destruct (Z.eqb_spec b 0); [lia | reflexivity].
Qed.

Lemma np_mod_range a b : 0 < b -> 0 <= np_mod a b < b.
Proof.
  intros Hb. rewrite np_mod_pos by assumption.
  apply Z.mod_pos_bound; assumption.
Qed.

Lemma bind_Ret {A B : Type} (m : outcome A) (k : A -> outcome B) (b : B) :
  bind m k = Ret b -> exists a, m = Ret a /\ k a = Ret b.
Proof.
  destruct m as [a | e |]; simpl; intros H; [eauto | discriminate | discriminate].
Qed.

Lemma ndarray_get_nonneg {A : Type} (a : list A) (z : Z) (x : A) :
  0 <= z -> a !! Z.to_nat z = Some x -> ndarray_get a z = Ret x.
Proof.
  intros Hz Hx. unfold ndarray_get.
  pose proof (lookup_lt_Some _ _ _ Hx) as Hlt.
  destruct (Z.ltb_spec z 0); [lia |].
  destruct (Z.leb_spec 0 z); [| lia].
  destruct (Z.ltb_spec z (Z.of_nat (length a))); [| lia].
  simpl. rewrite Hx. reflexivity.
Qed.

Lemma ndarray_get_of_nat {A : Type} (a : list A) (n : nat) (x : A) :
  a !! n = Some x -> ndarray_get a (Z.of_nat n) = Ret x.
Proof.
  intros Hx. apply ndarray_get_nonneg; [lia |].
  rewrite Nat2Z.id. assumption.
Qed.

Lemma ndarray_get_Ret {A : Type} (a : list A) (z : Z) (x : A) :
  0 <= z -> ndarray_get a z = Ret x -> a !! Z.to_nat z = Some x.
Proof.
  intros Hz. unfold ndarray_get.
  destruct (Z.ltb_spec z 0); [lia |].
  destruct ((0 <=? z) && (z <? Z.of_nat (length a))); [| discriminate].
  destruct (a !! Z.to_nat z); [| discriminate].
  intros [= ->]. reflexivity.
Qed.

Lemma ndarray_get_in_range {A : Type} (a : list A) (z : Z) :
  0 <= z < Z.of_nat (length a) -> exists x, ndarray_get a z = Ret x.
Proof.
  intros Hz.
  destruct (lookup_lt_is_Some_2 a (Z.to_nat z)) as [x Hx]; [lia |].
  exists x. apply ndarray_get_nonneg; [lia | assumption].
Qed.

Lemma ndarray_set_nonneg {A : Type} (a : list A) (z : Z) (x : A) :
  0 <= z < Z.of_nat (length a) -> ndarray_set a z x = Ret (<[Z.to_nat z := x]> a).
Proof.
  intros Hz. unfold ndarray_set.
  destruct (Z.ltb_spec z 0); [lia |].
  destruct (Z.leb_spec 0 z); [| lia].
  destruct (Z.ltb_spec z (Z.of_nat (length a))); [| lia].
  reflexivity.
Qed.

(** ** string_hash *)

Lemma hash_step_spec h c :
  hash_step h c = (h * 1025 + ord c * 1009) mod 2 ^ 32.
Proof.
  unfold hash_step, P.
  change 0xFFFFFFFF with (Z.ones 32).
  rewrite Z.land_ones by lia.
  rewrite Z.shiftl_mul_pow2 by lia.
  f_equal. lia.
Qed.

Lemma hash_loop_spec x : forall h, hash_loop h x = spec_hash_fold h x.
Proof.
  induction x as [| c x IH]; intros h; simpl; [reflexivity |].
  rewrite hash_step_spec. apply IH.
Qed.

Lemma spec_hash_fold_range x :
  forall h, 0 <= h < 2 ^ 32 -> 0 <= spec_hash_fold h x < 2 ^ 32.
Proof.
  induction x as [| c x IH]; intros h Hh; simpl; [assumption |].
  apply IH. apply Z.mod_pos_bound. lia.
Qed.

Lemma string_hash_range x : 0 <= string_hash x < 2 ^ 32.
Proof. unfold string_hash, uint32. apply Z.mod_pos_bound. lia. Qed.

(** C3. [string_hash x] is the left fold of
    [h' = (h * 1025 + ord c * 1009) mod 2^32] over the characters of [x]
    from [h = 0]; the empty string hashes to 0; the result is an
    unsigned 32-bit integer.  Being a function of [x] alone, it is the
    same at every call. *)
Theorem string_hash_is_fold :
  forall x : string,
    string_hash x = spec_hash_fold 0 x
    /\ string_hash "" = 0
    /\ 0 <= string_hash x < 2 ^ 32.
Proof.
  intros x. split; [| split].
  - unfold string_hash, uint32. rewrite hash_loop_spec.
    apply Z.mod_small. apply spec_hash_fold_range. lia.
  - reflexivity.
  - apply string_hash_range.
Qed.

(** ** The first occurrence of a key *)

Lemma index_of_first key keys i :
  index_of key keys = Some i <-> first_at keys key i.
Proof.
  revert i. induction keys as [| k keys IH]; intros i; simpl.
  - split; [discriminate | intros [H _]; discriminate].
  - destruct (String.eqb_spec k key) as [-> | Hne].
    + split.
      * intros [= <-]. split; [reflexivity | intros j Hj; lia].
      * intros [Hi Hfirst]. destruct i as [| i]; [reflexivity |].
        exfalso. apply (Hfirst O); [lia | reflexivity].
    + destruct (index_of key keys) as [i' |] eqn:E; simpl.
      * split.
        -- intros [= <-]. destruct (proj1 (IH i') eq_refl) as [Hi Hfirst].
           split; [assumption |].
           intros [| j] Hj; simpl; [congruence | apply Hfirst; lia].
        -- intros [Hi Hfirst]. destruct i as [| i]; simpl in Hi; [congruence |].
           f_equal. symmetry.
           assert (Some i' = Some i) as [= ->]; [| reflexivity].
           apply IH. split; [assumption |].
           intros j Hj. apply (Hfirst (S j)). lia.
      * split; [discriminate |].
        intros [Hi Hfirst]. destruct i as [| i]; simpl in Hi; [congruence |].
        assert (None = Some i) as Hbad; [| discriminate].
        apply IH. split; [assumption |].
        intros j Hj. apply (Hfirst (S j)). lia.
Qed.

Lemma index_of_None key keys :
  index_of key keys = None <-> key ∉ keys.
Proof.
  induction keys as [| k keys IH]; simpl.
  - split; [intros _; apply not_elem_of_nil | reflexivity].
  - rewrite not_elem_of_cons.
    destruct (String.eqb_spec k key) as [-> | Hne].
    + split; [discriminate | intros [H _]; congruence].
    + destruct (index_of key keys); simpl.
      * split; [discriminate |]. intros [_ H]. apply IH in H. discriminate.
      * split; [| reflexivity]. intros _. split; [congruence | apply IH; reflexivity].
Qed.


(** ** Keys as the array reads them back *)

Lemma np_str_plain (s : string) : ends_in_nul s = false -> np_str s = s.
Proof.
  induction s as [| c s IH]; [reflexivity |].
  destruct s as [| c' s].
  - simpl. intros ->. reflexivity.
  - intros H. change (ends_in_nul (String c' s) = false) in H.
    change (np_str (String c (String c' s)))
      with (match np_str (String c' s) with
            | EmptyString =>
                if Ascii.eqb c NUL then EmptyString else String c EmptyString
            | String c0 r => String c (String c0 r)
            end).
    rewrite (IH H). reflexivity.
Qed.

Lemma np_str_ends (s : string) : ends_in_nul (np_str s) = false.
Proof.
  induction s as [| c s IH]; [reflexivity |].
  simpl. destruct (np_str s) as [| c' r].
  - destruct (Ascii.eqb c NUL) eqn:E; [reflexivity | simpl; assumption].
  - exact IH.
Qed.

Lemma np_str_length (s : string) :
  (String.length (np_str s) <= String.length s)%nat.
Proof.
  induction s as [| c s IH]; [reflexivity |].
  simpl. destruct (np_str s) as [| c' r].
  - destruct (Ascii.eqb c NUL); simpl; lia.
  - simpl in *. lia.
Qed.

Lemma np_array_plain (keys : list string) :
  plain_keys keys -> np_array keys = keys.
Proof.
  unfold plain_keys, np_array.
  induction 1 as [| k keys Hk _ IH]; [reflexivity |].
  rewrite fmap_cons, IH, (np_str_plain k Hk). reflexivity.
Qed.

Lemma np_array_length (keys : list string) :
  length (np_array keys) = length keys.
Proof. apply length_fmap. Qed.

Lemma np_array_ends (keys : list string) (k : string) :
  k ∈ np_array keys -> ends_in_nul k = false.
Proof.
  unfold np_array. intros H. apply list_elem_of_fmap in H as (k0 & -> & _).
  apply np_str_ends.
Qed.

(** ** The insertion loop *)

Lemma probe_empty_slot fuel :
  forall tb T hash bucket b,
    0 < T -> 0 <= bucket ->
    HashTable.probe fuel tb T hash bucket = Ret b ->
    0 <= b /\ tb !! Z.to_nat b = Some 0.
Proof.
  induction fuel as [| fuel IH]; intros tb T hash bucket b HT Hb; simpl;
    [discriminate |].
  intros H. apply bind_Ret in H as (v & Hv & H).
  unfold HashTable.EMPTY_BUCKET in H.
  destruct (Z.eqb_spec v 0) as [-> | Hne].
  - injection H as <-. split; [assumption |].
    apply ndarray_get_Ret; assumption.
  - apply IH in H; [assumption | assumption |].
    apply np_mod_range. assumption.
Qed.

Lemma probe_path fuel :
  forall tb T h k b,
    0 < T -> 0 <= h < 2 ^ 32 -> 0 <= k ->
    2 ^ 32 + 7 * (k + Z.of_nat fuel) <= 2 ^ 63 ->
    HashTable.probe fuel tb T (h + 7 * k) ((h + 7 * k) mod T) = Ret b ->
    exists p, k <= p < k + Z.of_nat fuel
      /\ Z.to_nat b = slot T h p
      /\ forall q, k <= q < p ->
           exists v, tb !! slot T h q = Some v /\ v <> 0.
Proof.
  induction fuel as [| fuel IH]; intros tb T h k b HT Hh Hk Hbound; simpl;
    [discriminate |].
  intros H. apply bind_Ret in H as (v & Hv & H).
  unfold HashTable.EMPTY_BUCKET in H.
  destruct (Z.eqb_spec v 0) as [-> | Hne].
  - injection H as <-. exists k. split; [lia |]. split; [reflexivity |].
    intros q Hq. lia.
  - rewrite int64_small in H by lia.
    rewrite np_mod_pos in H by assumption.
    replace (h + 7 * k + 7) with (h + 7 * (k + 1)) in H by lia.
    apply IH in H; [| assumption | assumption | lia | lia].
    destruct H as (p & Hp & Hslot & Hrun).
    exists p. split; [lia |]. split; [assumption |].
    intros q Hq. destruct (Z.eq_dec q k) as [-> | Hqk].
    + exists v. split; [| assumption].
      apply ndarray_get_Ret in Hv; [assumption |].
      apply Z.mod_pos_bound. assumption.
    + apply Hrun. lia.
Qed.

(** A probe that returns does so with the same bucket whatever fuel it
    was given. *)
Lemma probe_fuel_irrelevant fuel1 :
  forall fuel2 tb T hash bucket b1 b2,
    HashTable.probe fuel1 tb T hash bucket = Ret b1 ->
    HashTable.probe fuel2 tb T hash bucket = Ret b2 ->
    b1 = b2.
Proof.
  induction fuel1 as [| fuel1 IH]; intros fuel2 tb T hash bucket b1 b2; simpl;
    [discriminate |].
  destruct fuel2 as [| fuel2]; simpl; [discriminate |].
  destruct (ndarray_get tb bucket) as [v | e |]; simpl; try discriminate.
  destruct (v =? HashTable.EMPTY_BUCKET).
  - congruence.
  - apply IH.
Qed.

Lemma layout_insert n i tb b :
  layout n i tb -> tb !! b = Some 0 ->
  layout n (S i) (<[b := 1 + Z.of_nat i]> tb).
Proof.
  intros [Hlen Hrange Honce] Hb.
  pose proof (lookup_lt_Some _ _ _ Hb) as Hlt.
  constructor.
  - rewrite length_insert. assumption.
  - intros b' v. destruct (decide (b = b')) as [<- | Hne].
    + rewrite list_lookup_insert_eq by assumption. intros [= <-]. lia.
    + rewrite list_lookup_insert_ne by assumption.
      intros Hv. apply Hrange in Hv. lia.
  - intros j Hj. destruct (decide (j = i)) as [-> | Hji].
    + exists b. split; [apply list_lookup_insert_eq; assumption |].
      intros b'. destruct (decide (b = b')) as [<- | Hne]; [reflexivity |].
      rewrite list_lookup_insert_ne by assumption.
      intros Hv. apply Hrange in Hv. lia.
    + destruct (Honce j) as (b0 & Hb0 & Huniq); [lia |].
      assert (b <> b0) as Hne0 by (intros ->; rewrite Hb in Hb0; injection Hb0; lia).
      exists b0. split; [rewrite list_lookup_insert_ne by assumption; assumption |].
      intros b'. destruct (decide (b = b')) as [<- | Hne].
      * rewrite list_lookup_insert_eq by assumption. intros [= Hv]. lia.
      * rewrite list_lookup_insert_ne by assumption. apply Huniq.
Qed.

Lemma paths_insert fuel keys i tb b w :
  layout (length keys) i tb ->
  paths fuel keys i tb ->
  keys !! i = Some w ->
  tb !! b = Some 0 ->
  (exists p, 0 <= p < Z.of_nat fuel
     /\ b = slot (Z.of_nat (length keys) * 2) (string_hash w) p
     /\ forall q, 0 <= q < p ->
          exists v, tb !! slot (Z.of_nat (length keys) * 2) (string_hash w) q = Some v
                    /\ v <> 0) ->
  paths fuel keys (S i) (<[b := 1 + Z.of_nat i]> tb).
Proof.
  intros Hlay Hpaths Hw Hb (p & Hp & Hslot & Hrun) j w' Hj Hw' T.
  pose proof (lookup_lt_Some _ _ _ Hb) as Hlt.
  destruct (decide (j = i)) as [-> | Hji].
  - assert (w' = w) as -> by congruence.
    exists p. split; [assumption |]. split.
    + fold T in Hslot. rewrite <- Hslot. apply list_lookup_insert_eq. assumption.
    + intros q Hq. destruct (Hrun q Hq) as (v & Hv & Hv0). fold T in Hv.
      exists v. split.
      * rewrite list_lookup_insert_ne; [assumption |].
        intros Heq. rewrite Heq in Hb. congruence.
      * apply (lay_range _ _ _ Hlay) in Hv. lia.
  - destruct (Hpaths j w') as (p' & Hp' & Hslot' & Hrun'); [lia | assumption |].
    fold T in Hslot', Hrun'.
    exists p'. split; [assumption |]. split.
    + rewrite list_lookup_insert_ne; [assumption |].
      intros Heq. rewrite Heq in Hb. rewrite Hb in Hslot'. injection Hslot'. lia.
    + intros q Hq. destruct (Hrun' q Hq) as (v & Hv & Hv1).
      exists v. split; [| assumption].
      rewrite list_lookup_insert_ne; [assumption |].
      intros Heq. rewrite Heq in Hb. rewrite Hb in Hv. injection Hv. lia.
Qed.

Lemma build_from_inv fuel keys :
  forall words i tb ht,
    (i <= length keys)%nat -> drop i keys = words ->
    layout (length keys) i tb ->
    HashTable.build_from fuel (Z.of_nat i) words
      (HashTable.mk (np_array keys) tb (Z.of_nat (length keys) * 2)) = Ret ht ->
    HashTable.itos ht = np_array keys
    /\ HashTable.table_size ht = Z.of_nat (length keys) * 2
    /\ layout (length keys) (length keys) (HashTable.table ht)
    /\ (Z.of_nat fuel <= 2 ^ 59 -> paths fuel keys i tb ->
        paths fuel keys (length keys) (HashTable.table ht)).
Proof.
  induction words as [| word rest IH]; intros i tb ht Hi Hdrop Hlay; simpl.
  - intros [= <-]. simpl.
    assert (i = length keys) as ->.
    { apply (f_equal length) in Hdrop. rewrite length_drop in Hdrop.
      simpl in Hdrop. lia. }
    auto.
  - assert (keys !! i = Some word) as Hword.
    { rewrite <- (Nat.add_0_r i), <- lookup_drop, Hdrop. reflexivity. }
    pose proof (lookup_lt_Some _ _ _ Hword) as Hlt.
    set (T := Z.of_nat (length keys) * 2).
    assert (0 < T) as HT by (unfold T; lia).
    intros H. apply bind_Ret in H as (b & Hprobe & H).
    pose proof Hprobe as Hprobe'.
    apply probe_empty_slot in Hprobe' as [Hb0 Hb];
      [| assumption | apply np_mod_range; assumption].
    pose proof (lookup_lt_Some _ _ _ Hb) as Hblt.
    assert (np_array keys !! i = Some (np_str word)) as Hread
      by (unfold np_array; rewrite list_lookup_fmap, Hword; reflexivity).
    rewrite ndarray_set_nonneg in H by (rewrite ?np_array_length; lia).
    simpl in H.
    rewrite ndarray_set_nonneg in H by lia. simpl in H.
    rewrite Nat2Z.id, list_insert_id in H by assumption.
    replace (Z.of_nat i + 1) with (Z.of_nat (S i)) in H by lia.
    fold T in H.
    apply IH in H; [| lia | | apply layout_insert; assumption].
    + destruct H as (Hitos & Hsize & Hlay' & Hpaths').
      split; [assumption |]. split; [assumption |]. split; [assumption |].
      intros Hfuel Hpaths. apply Hpaths'; [assumption |].
      apply paths_insert with (w := word); try assumption.
      rewrite np_mod_pos in Hprobe by assumption.
      pose proof (string_hash_range word) as Hh.
      pose proof (probe_path fuel tb T (string_hash word) 0 b) as Hp.
      rewrite Z.mul_0_r, Z.add_0_r in Hp.
      destruct Hp as (p & Hp & Hslot & Hrun); [assumption | assumption | lia | lia | assumption |].
      exists p. fold T. split; [lia |]. split; [assumption |].
      intros q Hq. apply Hrun. lia.
    + rewrite (drop_S _ _ _ Hword) in Hdrop. congruence.
Qed.

Lemma init_built fuel keys ht :
  HashTable.__init__ fuel keys = Ret ht -> built fuel keys ht.
Proof.
  unfold HashTable.__init__, HashTable._build.
  intros H. apply bind_Ret in H as (m & Hm & H).
  assert (keys <> []) as Hne by (destruct keys; [discriminate | discriminate]).
  apply (build_from_inv fuel keys keys 0%nat) in H.
  - destruct H as (Hitos & Hsize & Hlay & Hpaths).
    constructor; try assumption.
    intros Hfuel. apply Hpaths; [assumption |].
    intros j w Hj. lia.
  - lia.
  - reflexivity.
  - constructor.
    + rewrite length_replicate. lia.
    + intros b v Hv. apply lookup_replicate in Hv as [-> _]. lia.
    + intros j Hj. lia.
Qed.

(** ** The lookup loop *)

Section Find.

Variables (fuel : nat) (keys : list string) (ht : HashTable.t).
Hypothesis Hbuilt : built fuel keys ht.

Lemma capacity_pos : 0 < capacity keys.
Proof.
  pose proof (built_nonempty _ _ _ Hbuilt) as Hne.
  unfold capacity. destruct keys; [congruence | simpl; lia].
Qed.

(** On a built table the loop returns, and what it returns is the
    ordinal of an occurrence of the key in the key table. *)
Lemma find_loop_sound key h :
  forall probes,
  exists r, HashTable.find_loop ht key h probes = Ret r
            /\ forall j, r = Some j ->
                 0 <= j /\ HashTable.itos ht !! Z.to_nat j = Some key.
Proof.
  pose proof capacity_pos as HT.
  destruct Hbuilt as [Hne Hitos Hsize Hlay _].
  induction probes as [| p probes IH]; simpl.
  - exists None. split; [reflexivity | discriminate].
  - rewrite Hsize. fold (capacity keys).
    pose proof (np_mod_range (int64 (h + 7 * p)) (capacity keys) HT) as Hb.
    set (bucket := np_mod (int64 (h + 7 * p)) (capacity keys)) in *.
    destruct (ndarray_get_in_range (HashTable.table ht) bucket) as [v Hv].
    { rewrite (lay_len _ _ _ Hlay). unfold capacity in Hb. lia. }
    rewrite Hv. simpl. unfold HashTable.EMPTY_BUCKET.
    destruct (Z.eqb_spec v 0) as [-> | Hv0].
    + exists None. split; [reflexivity | discriminate].
    + apply ndarray_get_Ret in Hv; [| lia].
      apply (lay_range _ _ _ Hlay) in Hv.
      destruct (ndarray_get_in_range (HashTable.itos ht) (v - 1)) as [s Hs].
      { rewrite Hitos, np_array_length. lia. }
      rewrite Hs. simpl.
      destruct (String.eqb_spec s key) as [-> | Hsk]; [| exact IH].
      exists (Some (v - 1)). split; [reflexivity |].
      intros j [= <-]. split; [lia |].
      apply ndarray_get_Ret; [lia | assumption].
Qed.

(** A key that ends in NUL is not found, whatever the key list was. *)
Lemma find_key_ending_in_nul key :
  ends_in_nul key = true -> HashTable._find ht key = Ret None.
Proof.
  intros Hnul. unfold HashTable._find.
  destruct (find_loop_sound key (string_hash key)
              (range (HashTable.table_size ht))) as ([j |] & Hr & Hj);
    [exfalso | assumption].
  destruct (Hj j eq_refl) as [_ Hin].
  rewrite (built_itos _ _ _ Hbuilt) in Hin.
  apply list_elem_of_lookup_2, np_array_ends in Hin. congruence.
Qed.

Hypothesis Hfuel : Z.of_nat fuel <= 2 ^ 59.
Hypothesis Hplain : plain_keys keys.

Lemma built_itos_plain : HashTable.itos ht = keys.
Proof. rewrite (built_itos _ _ _ Hbuilt). apply np_array_plain, Hplain. Qed.

(** The loop walks over the buckets taken by other keys and stops at
    the bucket of the first occurrence. *)
Lemma find_loop_hit key i p :
  first_at keys key i ->
  0 <= p < Z.of_nat fuel ->
  HashTable.table ht !! slot (capacity keys) (string_hash key) p = Some (1 + Z.of_nat i) ->
  (forall q, 0 <= q < p ->
     exists v, HashTable.table ht !! slot (capacity keys) (string_hash key) q = Some v
               /\ 1 <= v <= Z.of_nat i) ->
  forall d k len,
    (k + d = Z.to_nat p)%nat -> (d < len)%nat ->
    HashTable.find_loop ht key (string_hash key) (Z.of_nat <$> seq k len)
    = Ret (Some (Z.of_nat i)).
Proof.
  intros [Hi Hfirst] Hp Hhit Hrun.
  pose proof capacity_pos as HT.
  pose proof (string_hash_range key) as Hh.
  pose proof built_itos_plain as Hitos.
  destruct Hbuilt as [Hne _ Hsize Hlay _].
  assert (forall q, 0 <= q <= p ->
            np_mod (int64 (string_hash key + 7 * q)) (HashTable.table_size ht)
            = Z.of_nat (slot (capacity keys) (string_hash key) q)) as Hbucket.
  { intros q Hq. rewrite int64_small by lia. rewrite Hsize. fold (capacity keys).
    rewrite np_mod_pos by assumption. unfold slot.
    rewrite Z2Nat.id; [reflexivity |].
    apply Z.mod_pos_bound. assumption. }
  induction d as [| d IH]; intros k len Hk Hlen;
    (destruct len as [| len]; [lia |]); simpl.
  - rewrite Hbucket by lia.
    replace (Z.of_nat k) with p by lia.
    rewrite (ndarray_get_of_nat _ _ _ Hhit). simpl.
    unfold HashTable.EMPTY_BUCKET.
    destruct (Z.eqb_spec (1 + Z.of_nat i) 0); [lia |].
    replace (1 + Z.of_nat i - 1) with (Z.of_nat i) by lia.
    rewrite Hitos, (ndarray_get_of_nat _ _ _ Hi). simpl.
    rewrite String.eqb_refl. reflexivity.
  - rewrite Hbucket by lia.
    destruct (Hrun (Z.of_nat k)) as (v & Hv & Hv1); [lia |].
    rewrite (ndarray_get_of_nat _ _ _ Hv). simpl.
    unfold HashTable.EMPTY_BUCKET.
    destruct (Z.eqb_spec v 0); [lia |].
    destruct (lookup_lt_is_Some_2 keys (Z.to_nat (v - 1))) as [s Hs];
      [apply lookup_lt_Some in Hi; lia |].
    rewrite (ndarray_get_nonneg _ _ s); simpl; [| lia | rewrite Hitos; exact Hs].
    destruct (String.eqb_spec s key) as [-> | Hsk].
    + exfalso. apply (Hfirst (Z.to_nat (v - 1))); [lia | assumption].
    + apply IH; lia.
Qed.

(** [_find] computes the place of the first occurrence. *)
Lemma find_index_of key :
  HashTable._find ht key = Ret (Z.of_nat <$> index_of key keys).
Proof.
  pose proof capacity_pos as HT.
  unfold HashTable._find.
  destruct (index_of key keys) as [i |] eqn:E; simpl.
  - apply index_of_first in E.
    pose proof (proj1 E) as Hi. apply lookup_lt_Some in Hi.
    destruct (built_paths _ _ _ Hbuilt Hfuel i key Hi (proj1 E))
      as (p & Hp & Hhit & Hrun).
    fold (capacity keys) in Hhit, Hrun.
    assert (p < (capacity keys)) as HpT.
    { destruct (Z.lt_ge_cases p (capacity keys)) as [| Hge]; [assumption | exfalso].
      destruct (Hrun (p - (capacity keys))) as (v & Hv & Hv1); [lia |].
      replace (slot (capacity keys) (string_hash key) (p - (capacity keys)))
        with (slot (capacity keys) (string_hash key) p) in Hv.
      - rewrite Hhit in Hv. injection Hv. lia.
      - unfold slot. f_equal.
        replace (string_hash key + 7 * (p - (capacity keys)))
          with (string_hash key + 7 * p + (- 7) * (capacity keys)) by lia.
        rewrite Z.mod_add by lia. reflexivity. }
    unfold range. rewrite (built_size _ _ _ Hbuilt). fold (capacity keys).
    apply (find_loop_hit key i p E Hp Hhit Hrun (Z.to_nat p) 0%nat); lia.
  - apply index_of_None in E.
    destruct (find_loop_sound key (string_hash key)
                (range (HashTable.table_size ht))) as ([j |] & Hr & Hj).
    + exfalso. destruct (Hj j eq_refl) as [_ Hin].
      rewrite built_itos_plain in Hin.
      apply E. apply list_elem_of_lookup. eauto.
    + assumption.
Qed.

End Find.

Lemma build_from_fuel_irrelevant fuel1 fuel2 :
  forall words i self ht1 ht2,
    HashTable.build_from fuel1 i words self = Ret ht1 ->
    HashTable.build_from fuel2 i words self = Ret ht2 ->
    ht1 = ht2.
Proof.
  induction words as [| word rest IH]; intros i self ht1 ht2; simpl.
  - congruence.
  - intros H1 H2.
    apply bind_Ret in H1 as (b1 & Hb1 & H1).
    apply bind_Ret in H2 as (b2 & Hb2 & H2).
    assert (b1 = b2) as <- by (eapply probe_fuel_irrelevant; eassumption).
    destruct (ndarray_set (HashTable.itos self) i (np_str word)); simpl in *;
      try discriminate.
    destruct (ndarray_set (HashTable.table self) b1 (1 + i)); simpl in *;
      try discriminate.
    eapply IH; eassumption.
Qed.

(** ** The index of a built table *)

Example build_cat_dog_cat :
  HashTable.__init__ 6 cat_dog_cat = Ret cat_dog_cat_table.
Proof. vm_compute. reflexivity. Qed.




(** C5. A table built from [N >= 1] keys has [2 * N] buckets; each
    ordinal [i < N] is stored, as [1 + i], in exactly one bucket; every
    bucket holds 0 or such a value; the key table is the key list as the
    array reads it back; and any other build of the same list yields the
    same table. *)
Theorem build_layout_invariant
        (fuel : nat) (keys : list string) (ht : HashTable.t) :
  keys <> [] ->
  HashTable.__init__ fuel keys = Ret ht ->
  length (HashTable.table ht) = (2 * length keys)%nat
  /\ HashTable.table_size ht = 2 * Z.of_nat (length keys)
  /\ (forall i, (i < length keys)%nat ->
        exists b, HashTable.table ht !! b = Some (1 + Z.of_nat i)
                  /\ forall b', HashTable.table ht !! b' = Some (1 + Z.of_nat i) ->
                                b' = b)
  /\ (forall b v, HashTable.table ht !! b = Some v ->
        v = HashTable.EMPTY_BUCKET
        \/ exists i, (i < length keys)%nat /\ v = 1 + Z.of_nat i)
  /\ HashTable.itos ht = np_array keys
  /\ (forall fuel' ht', HashTable.__init__ fuel' keys = Ret ht' -> ht' = ht).
Proof.
  intros _ Hinit. pose proof (init_built _ _ _ Hinit) as [_ Hitos Hsize Hlay _].
  split; [apply (lay_len _ _ _ Hlay) |].
  split; [lia |].
  split; [apply (lay_once _ _ _ Hlay) |].
  split; [| split; [assumption |]].
  - intros b v Hv. apply (lay_range _ _ _ Hlay) in Hv.
    destruct (Z.eq_dec v 0) as [-> | Hv0]; [left; reflexivity | right].
    exists (Z.to_nat (v - 1)). split; lia.
  - intros fuel' ht'. revert Hinit.
    unfold HashTable.__init__, HashTable._build.
    destruct (HashTable.max_str_len keys); simpl; try discriminate.
    intros H1 H2. eapply build_from_fuel_irrelevant; eassumption.
Qed.

Lemma build_layout_invariant_witness :
  length (HashTable.table cat_dog_cat_table) = (2 * length cat_dog_cat)%nat
  /\ HashTable.table_size cat_dog_cat_table = 2 * Z.of_nat (length cat_dog_cat)
  /\ (forall i, (i < length cat_dog_cat)%nat ->
        exists b, HashTable.table cat_dog_cat_table !! b = Some (1 + Z.of_nat i)
                  /\ forall b',
                       HashTable.table cat_dog_cat_table !! b' = Some (1 + Z.of_nat i) ->
                       b' = b)
  /\ (forall b v, HashTable.table cat_dog_cat_table !! b = Some v ->
        v = HashTable.EMPTY_BUCKET
        \/ exists i, (i < length cat_dog_cat)%nat /\ v = 1 + Z.of_nat i)
  /\ HashTable.itos cat_dog_cat_table = np_array cat_dog_cat
  /\ (forall fuel' ht',
        HashTable.__init__ fuel' cat_dog_cat = Ret ht' -> ht' = cat_dog_cat_table).
Proof.
  apply (build_layout_invariant 6 cat_dog_cat cat_dog_cat_table).
  - discriminate.
  - vm_compute. reflexivity.
Defined.

(** ** Termination of the probe loops *)

(** When every bucket on the probe sequence of [h] is taken, the
    [while] loop of [_build] is still running after any number of tests
    up to 2^59. *)
Lemma probe_all_taken fuel :
  forall tb T h k,
    0 < T -> 0 <= h < 2 ^ 32 -> 0 <= k ->
    2 ^ 32 + 7 * (k + Z.of_nat fuel) <= 2 ^ 63 ->
    (forall q, k <= q -> exists v, tb !! slot T h q = Some v /\ v <> 0) ->
    HashTable.probe fuel tb T (h + 7 * k) ((h + 7 * k) mod T) = Diverge.
Proof.
  induction fuel as [| fuel IH]; intros tb T h k HT Hh Hk Hbound Htaken; simpl;
    [reflexivity |].
  destruct (Htaken k) as (v & Hv & Hv0); [lia |].
  unfold slot in Hv.
  rewrite (ndarray_get_nonneg _ _ v); [| apply Z.mod_pos_bound; lia | assumption].
  simpl. unfold HashTable.EMPTY_BUCKET.
  destruct (Z.eqb_spec v 0); [lia |].
  rewrite int64_small by lia.
  rewrite np_mod_pos by assumption.
  replace (h + 7 * k + 7) with (h + 7 * (k + 1)) by lia.
  apply IH; [assumption | assumption | lia | lia |].
  intros q Hq. apply Htaken. lia.
Qed.

Lemma seven_keys_cycle q :
  0 <= q ->
  slot 14 (string_hash "o") q = 13%nat \/ slot 14 (string_hash "o") q = 6%nat.
Proof.
  intros Hq. unfold slot.
  change (string_hash "o") with 111999.
  pose proof (Z.div_mod q 2) as Hdm.
  pose proof (Z.mod_pos_bound q 2) as Hr.
  replace (111999 + 7 * q) with (111999 + 7 * (q mod 2) + (q / 2) * 14) by lia.
  rewrite Z.mod_add by lia.
  assert (q mod 2 = 0 \/ q mod 2 = 1) as [-> | ->] by lia;
    [left | right]; reflexivity.
Qed.

Lemma probe_at_empty fuel tb T hash bucket :
  ndarray_get tb bucket = Ret 0 ->
  HashTable.probe (S fuel) tb T hash bucket = Ret bucket.
Proof. intros H. simpl. rewrite H. reflexivity. Qed.

Lemma build_from_placed fuel i word rest keys tb T b keys' tb' :
  HashTable.probe fuel tb T (string_hash word) (np_mod (string_hash word) T)
  = Ret b ->
  ndarray_set keys i (np_str word) = Ret keys' ->
  ndarray_set tb b (1 + i) = Ret tb' ->
  HashTable.build_from fuel i (word :: rest) (HashTable.mk keys tb T)
  = HashTable.build_from fuel (i + 1) rest (HashTable.mk keys' tb' T).
Proof.
  intros Hb Hk Ht. simpl. rewrite Hb. simpl. rewrite Hk. simpl. rewrite Ht.
  reflexivity.
Qed.

Lemma build_from_stuck fuel i word rest keys tb T :
  HashTable.probe fuel tb T (string_hash word) (np_mod (string_hash word) T)
  = Diverge ->
  HashTable.build_from fuel i (word :: rest) (HashTable.mk keys tb T) = Diverge.
Proof. intros Hb. simpl. rewrite Hb. reflexivity. Qed.

(** C2. The insertion loop of [_build] does not terminate for every key
    list: with the seven keys a, h, o, b, c, d, e the table has 14
    buckets, the step 7 reaches only buckets 13 and 6 from the hash of
    "o", both are taken by "a" and "h", and the loop is still running
    after any number of attempts up to 2^59. *)
Theorem build_seven_keys_diverges (fuel : nat) :
  Z.of_nat fuel <= 2 ^ 59 ->
  HashTable.__init__ fuel seven_keys = Diverge.
Proof.
  intros Hfuel. destruct fuel as [| fuel]; [reflexivity |].
  unfold HashTable.__init__, HashTable._build, seven_keys.
  cbn [HashTable.max_str_len bind length].
  change (Z.of_nat 7 * 2) with 14.
  change (replicate (Z.to_nat 14) 0) with [0;0;0;0;0;0;0;0;0;0;0;0;0;0].
  rewrite (build_from_placed _ _ _ _ _ _ _ 13 seven_keys
             [0;0;0;0;0;0;0;0;0;0;0;0;0;1]);
    [| apply probe_at_empty; reflexivity | reflexivity | reflexivity].
  rewrite (build_from_placed _ _ _ _ _ _ _ 6 seven_keys
             [0;0;0;0;0;0;2;0;0;0;0;0;0;1]);
    [| apply probe_at_empty; reflexivity | reflexivity | reflexivity].
  apply build_from_stuck.
  rewrite np_mod_pos by lia.
  pose proof (probe_all_taken (S fuel) [0;0;0;0;0;0;2;0;0;0;0;0;0;1] 14
                (string_hash "o") 0) as H.
  rewrite Z.mul_0_r, Z.add_0_r in H.
  apply H; [lia | apply string_hash_range | lia | lia |].
  intros q Hq. destruct (seven_keys_cycle q Hq) as [-> | ->].
  - exists 1. split; [reflexivity | lia].
  - exists 2. split; [reflexivity | lia].
Qed.

Lemma build_seven_keys_diverges_witness :
  HashTable.__init__ 14 seven_keys = Diverge.
Proof.
  apply (build_seven_keys_diverges 14). vm_compute. discriminate.
Defined.

(** *** When the insertion loop does terminate *)

Lemma pigeonhole (m n : nat) (f : nat -> nat) :
  (forall x, (x < m)%nat -> (f x < n)%nat) ->
  (forall x y, (x < m)%nat -> (y < m)%nat -> f x = f y -> x = y) ->
  (m <= n)%nat.
Proof.
  intros Hran Hinj.
  assert (f <$> seq 0 m ⊆+ seq 0 n) as Hsub.
  { apply NoDup_submseteq.
    - apply NoDup_fmap_2_strong; [| apply NoDup_seq].
      intros x y Hx Hy. apply elem_of_seq in Hx. apply elem_of_seq in Hy.
      apply Hinj; lia.
    - intros y Hy. apply list_elem_of_fmap in Hy as (x & -> & Hx).
      apply elem_of_seq in Hx. apply elem_of_seq.
      specialize (Hran x). lia. }
  apply submseteq_length in Hsub.
  rewrite length_fmap, !length_seq in Hsub. assumption.
Qed.

Lemma gcd_capacity_step (n : Z) :
  0 <= n -> n mod 7 <> 0 -> Z.gcd (n * 2) 7 = 1.
Proof.
  intros Hn Hmod.
  pose proof (Z.gcd_nonneg (n * 2) 7) as Hg0.
  pose proof (Z.gcd_divide_r (n * 2) 7) as Hg7.
  pose proof (Z.gcd_divide_l (n * 2) 7) as Hgn.
  assert (Z.gcd (n * 2) 7 <= 7) as Hle by (apply Z.divide_pos_le; [lia | assumption]).
  set (g := Z.gcd (n * 2) 7) in *.
  assert (g = 0 \/ g = 1 \/ g = 2 \/ g = 3 \/ g = 4 \/ g = 5 \/ g = 6 \/ g = 7)
    as Hcases by lia.
  destruct Hg7 as [c Hc].
  destruct Hcases as [-> | [-> | [-> | [-> | [-> | [-> | [-> | ->]]]]]]];
    try lia.
  exfalso. apply Hmod.
  apply Z.mod_divide; [lia |].
  apply (Z.gauss 7 2 n); [| reflexivity].
  rewrite Z.mul_comm. assumption.
Qed.

Lemma slot_inj (T h p p' : Z) :
  0 < T -> Z.gcd T 7 = 1 ->
  0 <= p < T -> 0 <= p' < T ->
  slot T h p = slot T h p' -> p = p'.
Proof.
  intros HT Hgcd Hp Hp' Hslot. unfold slot in Hslot.
  apply Z2Nat.inj in Hslot;
    [| apply Z.mod_pos_bound; assumption | apply Z.mod_pos_bound; assumption].
  assert ((T | 7 * (p - p'))) as Hdiv.
  { pose proof (Z.div_mod (h + 7 * p) T) as H1.
    pose proof (Z.div_mod (h + 7 * p') T) as H2.
    exists ((h + 7 * p) / T - (h + 7 * p') / T). lia. }
  apply Z.gauss in Hdiv; [| assumption].
  destruct Hdiv as [c Hc].
  assert (c = 0) by nia. lia.
Qed.

(** The [while] loop never raises on a table of [T] buckets; if it is
    still running when the fuel is spent, every bucket it tested was
    taken. *)
Lemma probe_cases fuel :
  forall tb T h k,
    0 < T -> length tb = Z.to_nat T ->
    0 <= h < 2 ^ 32 -> 0 <= k ->
    2 ^ 32 + 7 * (k + Z.of_nat fuel) <= 2 ^ 63 ->
    (exists b, HashTable.probe fuel tb T (h + 7 * k) ((h + 7 * k) mod T) = Ret b)
    \/ (forall q, k <= q < k + Z.of_nat fuel ->
          exists v, tb !! slot T h q = Some v /\ v <> 0).
Proof.
  induction fuel as [| fuel IH]; intros tb T h k HT Hlen Hh Hk Hbound.
  - right. intros q Hq. lia.
  - simpl.
    pose proof (Z.mod_pos_bound (h + 7 * k) T HT) as Hb.
    destruct (ndarray_get_in_range tb ((h + 7 * k) mod T)) as [v Hv]; [lia |].
    rewrite Hv. simpl. unfold HashTable.EMPTY_BUCKET.
    destruct (Z.eqb_spec v 0) as [-> | Hv0]; [left; eauto |].
    rewrite int64_small by lia.
    rewrite np_mod_pos by assumption.
    replace (h + 7 * k + 7) with (h + 7 * (k + 1)) by lia.
    destruct (IH tb T h (k + 1)) as [Hret | Htaken];
      [assumption | assumption | assumption | lia | lia | left; assumption |].
    right. intros q Hq. destruct (Z.eq_dec q k) as [-> | Hqk].
    + exists v. split; [| assumption].
      apply ndarray_get_Ret in Hv; [assumption | lia].
    + apply Htaken. lia.
Qed.

Lemma probe_finds_empty fuel n i tb h :
  layout n i tb -> (i < n)%nat ->
  Z.of_nat n mod 7 <> 0 ->
  Z.of_nat n * 2 <= Z.of_nat fuel <= 2 ^ 59 ->
  0 <= h < 2 ^ 32 ->
  exists b, HashTable.probe fuel tb (Z.of_nat n * 2) h (h mod (Z.of_nat n * 2)) = Ret b.
Proof.
  intros Hlay Hi Hmod Hfuel Hh.
  set (T := Z.of_nat n * 2) in *.
  assert (0 < T) as HT by (unfold T; lia).
  pose proof (gcd_capacity_step (Z.of_nat n) ltac:(lia) Hmod) as Hgcd.
  fold T in Hgcd.
  pose proof (probe_cases fuel tb T h 0) as Hcases.
  rewrite Z.mul_0_r, Z.add_0_r in Hcases.
  destruct Hcases as [Hret | Htaken];
    [assumption | rewrite (lay_len _ _ _ Hlay); unfold T; lia | assumption
     | lia | lia | assumption |].
  exfalso.
  set (f := fun p : nat =>
              Z.to_nat (default 0 (tb !! slot T h (Z.of_nat p)) - 1)).
  assert (Z.to_nat T <= i)%nat as Hle; [| unfold T in Hle; lia].
  apply (pigeonhole _ _ f).
  - intros x Hx. unfold f.
    destruct (Htaken (Z.of_nat x)) as (v & Hv & Hv0); [lia |].
    rewrite Hv. simpl. apply (lay_range _ _ _ Hlay) in Hv. lia.
  - intros x y Hx Hy Hf. unfold f in Hf.
    destruct (Htaken (Z.of_nat x)) as (v & Hv & Hv0); [lia |].
    destruct (Htaken (Z.of_nat y)) as (v' & Hv' & Hv0'); [lia |].
    rewrite Hv, Hv' in Hf. simpl in Hf.
    pose proof (lay_range _ _ _ Hlay _ _ Hv) as Hr.
    pose proof (lay_range _ _ _ Hlay _ _ Hv') as Hr'.
    assert (v' = v) as -> by lia.
    destruct (lay_once _ _ _ Hlay (Z.to_nat (v - 1))) as (b & _ & Huniq); [lia |].
    replace (1 + Z.of_nat (Z.to_nat (v - 1))) with v in Huniq by lia.
    pose proof (Huniq _ Hv) as E1. pose proof (Huniq _ Hv') as E2.
    assert (Z.of_nat x = Z.of_nat y); [| lia].
    apply (slot_inj T h); [assumption | assumption | lia | lia | congruence].
Qed.

Lemma build_from_terminates fuel keys :
  Z.of_nat (length keys) mod 7 <> 0 ->
  Z.of_nat (length keys) * 2 <= Z.of_nat fuel <= 2 ^ 59 ->
  forall words i tb,
    (i <= length keys)%nat -> drop i keys = words ->
    layout (length keys) i tb ->
    exists ht,
      HashTable.build_from fuel (Z.of_nat i) words
        (HashTable.mk (np_array keys) tb (Z.of_nat (length keys) * 2)) = Ret ht.
Proof.
  intros Hmod Hfuel.
  induction words as [| word rest IH]; intros i tb Hi Hdrop Hlay; simpl;
    [eauto |].
  assert (keys !! i = Some word) as Hword.
  { rewrite <- (Nat.add_0_r i), <- lookup_drop, Hdrop. reflexivity. }
  pose proof (lookup_lt_Some _ _ _ Hword) as Hlt.
  set (T := Z.of_nat (length keys) * 2) in *.
  assert (0 < T) as HT by (unfold T; lia).
  rewrite np_mod_pos by assumption.
  destruct (probe_finds_empty fuel (length keys) i tb (string_hash word))
    as [b Hprobe]; [assumption | lia | assumption | assumption
                    | apply string_hash_range |].
  fold T in Hprobe. rewrite Hprobe. simpl.
  apply probe_empty_slot in Hprobe as [Hb0 Hb];
    [| assumption | apply Z.mod_pos_bound; assumption].
  pose proof (lookup_lt_Some _ _ _ Hb) as Hblt.
  assert (np_array keys !! i = Some (np_str word)) as Hread
    by (unfold np_array; rewrite list_lookup_fmap, Hword; reflexivity).
  rewrite ndarray_set_nonneg by (rewrite ?np_array_length; lia). simpl.
  rewrite ndarray_set_nonneg by lia. simpl.
  rewrite Nat2Z.id, list_insert_id by assumption.
  replace (Z.of_nat i + 1) with (Z.of_nat (S i)) by lia.
  apply IH; [lia | | apply layout_insert; assumption].
  rewrite (drop_S _ _ _ Hword) in Hdrop. congruence.
Qed.

(** With a number of keys that is not a multiple of 7, the build
    terminates, each key being placed within [capacity] attempts. *)
Lemma build_terminates (fuel : nat) (keys : list string) :
  keys <> [] ->
  Z.of_nat (length keys) mod 7 <> 0 ->
  Z.of_nat (length keys) * 2 <= Z.of_nat fuel <= 2 ^ 59 ->
  exists ht, HashTable.__init__ fuel keys = Ret ht.
Proof.
  intros Hne Hmod Hfuel.
  unfold HashTable.__init__, HashTable._build.
  destruct keys as [| k keys']; [congruence |].
  cbn [HashTable.max_str_len bind].
  apply (build_from_terminates fuel (k :: keys') Hmod Hfuel (k :: keys') 0%nat).
  - lia.
  - reflexivity.
  - constructor.
    + rewrite length_replicate. lia.
    + intros b v Hv. apply lookup_replicate in Hv as [-> _]. lia.
    + intros j Hj. lia.
Qed.

(** [_find] is a bounded loop: it never leaves its caller waiting,
    whatever the table. *)
Lemma find_loop_returns_or_raises self key h probes :
  HashTable.find_loop self key h probes <> Diverge.
Proof.
  induction probes as [| p probes IH]; simpl; [discriminate |].
  destruct (ndarray_get (HashTable.table self) _) as [v | e |] eqn:Ev; simpl;
    [| discriminate |].
  - destruct (v =? HashTable.EMPTY_BUCKET); [discriminate |].
    destruct (ndarray_get (HashTable.itos self) _) as [s | e |] eqn:Es; simpl;
      [| discriminate |].
    + destruct (String.eqb s key); [discriminate | assumption].
    + unfold ndarray_get in Es.
      repeat match type of Es with
             | context [if ?c then _ else _] => destruct c
             | context [match ?c with _ => _ end] => destruct c
             end; discriminate.
  - unfold ndarray_get in Ev.
    repeat match type of Ev with
           | context [if ?c then _ else _] => destruct c
           | context [match ?c with _ => _ end] => destruct c
           end; discriminate.
Qed.

Lemma range_length (n : Z) : length (range n) = Z.to_nat n.
Proof. unfold range. rewrite length_fmap, length_seq. reflexivity. Qed.

(** ** Size and equality of an index *)

(** C8. [__len__] hands back the key table itself, not the number of
    keys: for the table of cat, dog, cat it is the array of the three
    strings and not the integer 3, and for no table is it an integer. *)
Theorem len_returns_key_table :
  HashTable.__len__ cat_dog_cat_table
  = HashTable.PyStrArray ["cat"; "dog"; "cat"]%string
  /\ HashTable.__len__ cat_dog_cat_table <> HashTable.PyInt 3
  /\ forall (ht : HashTable.t) (z : Z),
       HashTable.__len__ ht = HashTable.PyStrArray (HashTable.itos ht)
       /\ HashTable.__len__ ht <> HashTable.PyInt z.
Proof.
  split; [reflexivity |]. split; [discriminate |].
  intros ht z. split; [reflexivity | discriminate].
Qed.

Lemma zip_with_eqb_refl (l : list string) :
  zip_with String.eqb l l = replicate (length l) true.
Proof.
  induction l as [| x l IH]; simpl; [reflexivity |].
  rewrite String.eqb_refl, IH. reflexivity.
Qed.

(** C9. [__eq__] of two indexes hands back the array of the
    element-wise comparisons of their key tables, not a boolean: a
    table compared with itself gives an array of [True], one per key.
    The bucket arrays play no part in the answer. *)
Theorem eq_returns_elementwise_array :
  HashTable.__eq__ cat_dog_cat_table (HashTable.Obj cat_dog_cat_table)
  = HashTable.PyBoolArray [true; true; true]
  /\ (forall ht : HashTable.t,
        HashTable.__eq__ ht (HashTable.Obj ht)
        = HashTable.PyBoolArray (replicate (length (HashTable.itos ht)) true)
        /\ HashTable.__eq__ ht (HashTable.Obj ht) <> HashTable.PyBool true)
  /\ (forall a b tb tb' n n',
        HashTable.__eq__ (HashTable.mk (HashTable.itos a) tb n)
          (HashTable.Obj (HashTable.mk (HashTable.itos b) tb' n'))
        = HashTable.__eq__ a (HashTable.Obj b)).
Proof.
  split; [reflexivity |]. split.
  - intros ht. unfold HashTable.__eq__, HashTable.ndarray_eq.
    rewrite Nat.eqb_refl, zip_with_eqb_refl.
    split; [reflexivity | discriminate].
  - intros a b tb tb' n n'. reflexivity.
Qed.

(** ** The empty key list *)

(** C10, as the code has it.  Building from an empty key list raises
    [ValueError]; a table that a build returns has at least one key and
    a strictly positive capacity; on a table of capacity 0 [_find] makes
    no probe at all and reports not-found. *)
Theorem build_needs_a_key :
  (forall fuel, HashTable.__init__ fuel [] = Raise ValueError)
  /\ (forall fuel keys ht,
        HashTable.__init__ fuel keys = Ret ht ->
        (0 < length (HashTable.itos ht))%nat /\ 0 < HashTable.table_size ht)
  /\ (forall keys tb key,
        range (HashTable.table_size (HashTable.mk keys tb 0)) = []
        /\ HashTable._find (HashTable.mk keys tb 0) key = Ret None).
Proof.
  split; [reflexivity |]. split.
  - intros fuel keys ht H. apply init_built in H as [Hne Hitos Hsize _ _].
    rewrite Hitos, Hsize. destruct keys; [congruence | simpl; lia].
  - intros keys tb key. split; reflexivity.
Qed.

Lemma build_needs_a_key_witness :
  (0 < length (HashTable.itos cat_dog_cat_table))%nat
  /\ 0 < HashTable.table_size cat_dog_cat_table.
Proof.
  apply (proj1 (proj2 build_needs_a_key) 6%nat cat_dog_cat).
  vm_compute. reflexivity.
Defined.

(** C10, as stated, fails: on the table of capacity 0 that adopting two
    empty arrays gives, the probe loop of [_find] has nothing to run
    over, so nothing is reduced modulo zero, and the call returns
    not-found. *)
Lemma find_on_capacity_zero_returns :
  HashTable.table_size empty_table = 0
  /\ range (HashTable.table_size empty_table) = []
  /\ HashTable._find empty_table "fish" = Ret None.
Proof. split; [| split]; reflexivity. Qed.

(** ** The line loop *)

Section Lines.

Variable F : Type.
Variable fzero : F.
Variable float : string -> option F.
Variable decode_utf8 : string -> option string.

Lemma read_lines_raise binary_lines nlines line rest (st : loader F) e :
  read_line fzero float decode_utf8 binary_lines nlines line st = Raise e ->
  read_lines fzero float decode_utf8 binary_lines nlines (line :: rest) st
  = Raise e.
Proof. intros H. simpl. rewrite H. reflexivity. Qed.

(** C4, as the code has it.  Once the dimension [d] is established, a
    line with exactly one value is skipped with a warning and leaves
    keys, matrix and dimension as they were; a line with any other
    number of values different from [d] raises [RuntimeError], which
    ends the loop over the lines. *)
Theorem line_with_wrong_field_count
        (binary_lines : bool) (nlines : nat) (line : string)
        (rest : list string) (st : loader F) (d : Z)
        (word : string) (entries : list string) :
  l_dim st = Some d ->
  split " "%char
    (rstrip (if binary_lines then is_space_bytes else is_space) line)
  = word :: entries ->
  (length entries = 1%nat ->
   read_line fzero float decode_utf8 binary_lines nlines line st
   = Ret (mkLoader (l_itos st) (l_vectors st) (l_dim st) (l_i st)
                   (l_warnings st ++ [word])))
  /\ (length entries <> 1%nat -> Z.of_nat (length entries) <> d ->
      read_lines fzero float decode_utf8 binary_lines nlines (line :: rest) st
      = Raise RuntimeError).
Proof.
  intros Hd Hsplit. split.
  - intros Hone. unfold read_line. rewrite Hsplit, Hd, Hone. reflexivity.
  - intros Hone Hne. apply read_lines_raise.
    unfold read_line. rewrite Hsplit, Hd.
    destruct (Z.eqb_spec (Z.of_nat (length entries)) 1); [lia |].
    destruct (Z.eqb_spec d (Z.of_nat (length entries))); [lia |].
    reflexivity.
Qed.

End Lines.

Lemma line_with_wrong_field_count_witness :
  read_line 0%Q Qfloat Some false 2 ("badtoken 5.0" ++ newline)%string after_cat
  = Ret (mkLoader ["cat"]%string (Some [[1%Q; 2%Q]; [0%Q; 0%Q]]) (Some 2) 1
                  ["badtoken"%string])
  /\ read_lines 0%Q Qfloat Some false 2
       ["bad 1.0 2.0 3.0"%string; "dog 3.0 4.0"%string] after_cat
     = Raise RuntimeError.
Proof.
  split.
  - apply (proj1 (line_with_wrong_field_count Q 0%Q Qfloat Some false 2
                    ("badtoken 5.0" ++ newline)%string [] after_cat 2
                    "badtoken"%string ["5.0"%string]
                    eq_refl eq_refl)).
    reflexivity.
  - apply (proj2 (line_with_wrong_field_count Q 0%Q Qfloat Some false 2
                    "bad 1.0 2.0 3.0"%string ["dog 3.0 4.0"%string] after_cat 2
                    "bad"%string ["1.0"; "2.0"; "3.0"]%string
                    eq_refl eq_refl)).
    + simpl. lia.
    + simpl. lia.
Defined.

(** C4, as stated, fails: after "cat 1.0 2.0" has set the dimension to
    2, the line "badtoken 5.0" is skipped with a warning; the loop
    returns with the one key cat and raises nothing. *)
Lemma badtoken_line_is_skipped :
  load_lines 0%Q Qfloat Some false cat_badtoken_lines
  = Ret (mkLoader ["cat"]%string (Some [[1%Q; 2%Q]; [0%Q; 0%Q]]) (Some 2) 1
                  ["badtoken"%string])
  /\ load_lines 0%Q Qfloat Some false cat_badtoken_lines <> Raise RuntimeError.
Proof. split; [vm_compute; reflexivity | vm_compute; discriminate]. Qed.

(** ** Lookup of a vector *)

Section Lookup.

Variable F : Type.
Variable fzero : F.
Variable fadd : F -> F -> F.
Variable fdiv : F -> Z -> F.

Lemma zero_rows_fresh (mem : nat -> F) (d : nat) :
  zero_rows fzero (Tensor mem 1 d) = [replicate d fzero].
Proof.
  unfold zero_rows, Tensor. simpl. f_equal.
  rewrite <- list_fmap_compose.
  rewrite (const_fmap _ _ fzero) by reflexivity.
  rewrite length_seq. reflexivity.
Qed.

Lemma contains_absent fuel keys ht key :
  built fuel keys ht -> key ∉ HashTable.itos ht ->
  HashTable.__contains__ ht key = Ret false.
Proof.
  intros Hb Habs. unfold HashTable.__contains__, HashTable._find.
  destruct (find_loop_sound fuel keys ht Hb key (string_hash key)
              (range (HashTable.table_size ht))) as ([j |] & Hr & Hj);
    rewrite Hr; simpl; [| reflexivity].
  exfalso. destruct (Hj j eq_refl) as [_ Hin].
  apply Habs. apply list_elem_of_lookup. eauto.
Qed.

(** C6. On a table whose index was built, the lookup of a token that
    is not in the key table returns, without raising, what [unk_init]
    makes of a fresh tensor of shape [(1, dim)]; with the default
    [unk_init] that is one row of [dim] zeros. *)
Theorem lookup_of_absent_token
        (mem : nat -> F) (fuel : nat) (keys : list string)
        (self : Vectors F) (token : string) :
  HashTable.__init__ fuel keys = Ret (stoi self) ->
  token ∉ itos self ->
  getitem mem self token
  = Ret (unk_init self (Matrix (Tensor mem 1 (dim self))))
  /\ (unk_init self = zero_ fzero ->
      getitem mem self token = Ret (Matrix [replicate (dim self) fzero])).
Proof.
  intros Hinit Habs. apply init_built in Hinit as Hb.
  assert (getitem mem self token
          = Ret (unk_init self (Matrix (Tensor mem 1 (dim self))))) as Hget.
  { unfold getitem.
    rewrite (contains_absent fuel keys); [reflexivity | assumption |].
    exact Habs. }
  split; [assumption |].
  intros Hunk. rewrite Hget, Hunk. unfold zero_.
  rewrite zero_rows_fresh. reflexivity.
Qed.

End Lookup.

Lemma lookup_of_absent_token_witness :
  getitem stale cat_dog_vectors "fish"
  = Ret (unk_init cat_dog_vectors (Matrix (Tensor stale 1 (dim cat_dog_vectors))))
  /\ (unk_init cat_dog_vectors = zero_ 0%Q ->
      getitem stale cat_dog_vectors "fish"
      = Ret (Matrix [replicate (dim cat_dog_vectors) 0%Q])).
Proof.
  apply (lookup_of_absent_token Q 0%Q stale 4 cat_dog cat_dog_vectors "fish").
  - vm_compute. reflexivity.
  - apply index_of_None. reflexivity.
Defined.

(** ** Lookup in a character n-gram table *)

Section SubKeys.

Variable F : Type.
Variable fzero : F.
Variable fadd : F -> F -> F.
Variable fdiv : F -> Z -> F.

Variables (fuel : nat) (keys : list string) (self : Vectors F).
Hypothesis Hinit : HashTable.__init__ fuel keys = Ret (stoi self).
Hypothesis Hrows : length (vectors self) = length keys.
Hypothesis Hdim : Forall (fun r : list F => length r = dim self) (vectors self).

(** The index answers, and an ordinal it returns has a row. *)
Lemma find_in_table key :
  exists r, HashTable._find (stoi self) key = Ret r
            /\ forall j, r = Some j ->
                 0 <= j /\ exists row, vectors self !! Z.to_nat j = Some row.
Proof.
  pose proof (init_built _ _ _ Hinit) as Hb.
  unfold HashTable._find.
  destruct (find_loop_sound fuel keys (stoi self) Hb key (string_hash key)
              (range (HashTable.table_size (stoi self)))) as (r & Hr & Hj).
  exists r. split; [exact Hr |].
  intros j ->. destruct (Hj j eq_refl) as [Hj0 Hin].
  split; [assumption |].
  apply lookup_lt_Some in Hin.
  rewrite (built_itos _ _ _ Hb), np_array_length in Hin.
  apply lookup_lt_is_Some_2. lia.
Qed.

Lemma iadd_row (r0 row : list F) :
  length r0 = length row ->
  iadd fadd [r0] row = Ret [zip_with fadd r0 row].
Proof.
  intros Hlen. unfold iadd.
  destruct row as [| x [| y row]].
  - simpl. rewrite Hlen. reflexivity.
  - destruct r0 as [| z [| z' r0]]; try discriminate. reflexivity.
  - simpl forallb. rewrite Hlen, Nat.eqb_refl. reflexivity.
Qed.

Lemma sum_rows_length (rows : list (list F)) :
  Forall (fun r : list F => length r = dim self) rows ->
  forall r0, length r0 = dim self ->
  length (sum_rows fadd rows r0) = dim self.
Proof.
  unfold sum_rows.
  induction 1 as [| r rows Hr Hrows' IH]; intros r0 Hr0; simpl; [assumption |].
  apply IH. rewrite length_zip_with. lia.
Qed.

Lemma found_row_length key r :
  found_row self key = Some r -> length r = dim self.
Proof.
  unfold found_row.
  destruct (HashTable._find (stoi self) key) as [[j |] | |]; try discriminate.
  intros Hr. rewrite Forall_lookup in Hdim. apply (Hdim _ _ Hr).
Qed.

Lemma found_rows_length (ks : list string) :
  Forall (fun r : list F => length r = dim self) (omap (found_row self) ks).
Proof.
  induction ks as [| k ks IH]; simpl; [constructor |].
  destruct (found_row self k) as [r |] eqn:E; [| assumption].
  constructor; [apply (found_row_length k); assumption | assumption].
Qed.

(** The inner loop adds, in order, the rows of the sub-keys that the
    index finds, and counts them. *)
Lemma add_grams_spec (n : nat) (gs : list (list string)) :
  forall (r0 : list F) (c : Z),
    length r0 = dim self ->
    add_grams fadd self n gs ([r0], c)
    = Ret ([sum_rows fadd (omap (found_row self) (gram_key n <$> gs)) r0],
           c + Z.of_nat (length (omap (found_row self) (gram_key n <$> gs)))).
Proof.
  induction gs as [| g gs IH]; intros r0 c Hr0.
  - simpl. rewrite Z.add_0_r. reflexivity.
  - destruct (find_in_table (gram_key n g)) as (r & Hr & Hj).
    assert (found_row self (gram_key n g)
            = match r with
              | Some j => vectors self !! Z.to_nat j
              | None => None
              end) as Hfound
      by (unfold found_row; rewrite Hr; reflexivity).
    rewrite fmap_cons. cbn [omap list_omap add_grams]. rewrite Hfound.
    unfold HashTable.__contains__, HashTable.__getitem__.
    rewrite Hr. destruct r as [j |]; simpl.
    + destruct (Hj j eq_refl) as (Hj0 & row & Hrow).
      rewrite (ndarray_get_nonneg _ _ row Hj0 Hrow), Hrow. simpl.
      assert (length row = dim self) as Hlen.
      { rewrite Forall_lookup in Hdim. apply (Hdim _ _ Hrow). }
      rewrite iadd_row by congruence. simpl.
      rewrite IH by (rewrite length_zip_with; lia).
      f_equal. f_equal. lia.
    + apply IH. assumption.
Qed.

Lemma add_sizes_spec (token : string) (r0 : list F) :
  length r0 = dim self ->
  add_sizes fadd self [2; 3; 4]%nat (chars token) ([r0], 0)
  = Ret ([sum_rows fadd (omap (found_row self) (sub_keys token)) r0],
         Z.of_nat (length (omap (found_row self) (sub_keys token)))).
Proof.
  intros Hr0. unfold add_sizes, sub_keys.
  rewrite add_grams_spec by assumption. simpl bind.
  rewrite add_grams_spec
    by (apply sum_rows_length; [apply found_rows_length | assumption]).
  simpl bind.
  rewrite add_grams_spec
    by (apply sum_rows_length; [apply found_rows_length |];
        apply sum_rows_length; [apply found_rows_length | assumption]).
  simpl bind.
  rewrite !omap_app, !length_app. unfold sum_rows.
  rewrite !fold_left_app. f_equal. f_equal. lia.
Qed.

Lemma charngram_lookup_spec (mem : nat -> F) (token : string) :
  charngram_getitem fzero fadd fdiv mem self token
  = Ret (if String.eqb token "<unk>"
         then unk_init self (Matrix [replicate (dim self) fzero])
         else match omap (found_row self) (sub_keys token) with
              | [] => unk_init self (Matrix [replicate (dim self) fzero])
              | rows => Matrix [mean_row fzero fadd fdiv (dim self) rows]
              end).
Proof.
  unfold charngram_getitem. rewrite zero_rows_fresh.
  destruct (String.eqb token "<unk>"); [reflexivity |].
  rewrite add_sizes_spec by apply length_replicate.
  simpl bind. cbv iota beta.
  destruct (omap (found_row self) (sub_keys token)) as [| r rows] eqn:E.
  - reflexivity.
  - destruct (Z.ltb_spec 0 (Z.of_nat (length (r :: rows)))) as [_ | Hbad];
      [| simpl in Hbad; lia].
    reflexivity.
Qed.

(** With no key that ends in NUL, the index finds a key exactly when
    it is in the key table, at its first occurrence. *)
Lemma found_row_of key :
  Z.of_nat fuel <= 2 ^ 59 -> plain_keys keys ->
  found_row self key = row_of self key.
Proof.
  intros Hfuel Hplain. pose proof (init_built _ _ _ Hinit) as Hb.
  unfold found_row, row_of, itos.
  rewrite (find_index_of fuel keys (stoi self) Hb Hfuel Hplain).
  rewrite (built_itos_plain fuel keys (stoi self) Hb Hplain).
  destruct (index_of key keys) as [i |]; simpl; [| reflexivity].
  rewrite Nat2Z.id. reflexivity.
Qed.

End SubKeys.

(** C7, as the code has it.  The lookup of a character n-gram table
    does the same for every token, whether the token is itself a key or
    not.  For the token "<unk>" it returns what [unk_init] makes of a
    zero row, without a look at the sub-keys; for any other token it
    takes the rows of those sub-keys -- "2gram-", "3gram-" and "4gram-"
    followed by each window of 2, 3 and 4 consecutive elements of
    #BEGIN#, the characters, #END# -- that the index finds: with none
    found it returns what [unk_init] makes of a zero row, otherwise
    their mean.  When no key ends in a NUL character, the sub-keys that
    the index finds are those of the key table, each with the row of
    its first occurrence. *)
Theorem charngram_lookup_averages_sub_keys
        (F : Type) (fzero : F) (fadd : F -> F -> F) (fdiv : F -> Z -> F)
        (mem : nat -> F) (fuel : nat) (keys : list string)
        (self : Vectors F) (token : string) :
  HashTable.__init__ fuel keys = Ret (stoi self) ->
  length (vectors self) = length keys ->
  Forall (fun r : list F => length r = dim self) (vectors self) ->
  (token = "<unk>"%string ->
   charngram_getitem fzero fadd fdiv mem self token
   = Ret (unk_init self (Matrix [replicate (dim self) fzero])))
  /\ (token <> "<unk>"%string ->
      omap (found_row self) (sub_keys token) = [] ->
      charngram_getitem fzero fadd fdiv mem self token
      = Ret (unk_init self (Matrix [replicate (dim self) fzero])))
  /\ (token <> "<unk>"%string ->
      omap (found_row self) (sub_keys token) <> [] ->
      charngram_getitem fzero fadd fdiv mem self token
      = Ret (Matrix [mean_row fzero fadd fdiv (dim self)
                       (omap (found_row self) (sub_keys token))]))
  /\ (Z.of_nat fuel <= 2 ^ 59 -> plain_keys keys ->
      forall key, found_row self key = row_of self key).
Proof.
  intros Hinit Hrows Hdim.
  rewrite (charngram_lookup_spec F fzero fadd fdiv fuel keys self
             Hinit Hrows Hdim mem token).
  split; [| split; [| split]].
  - intros ->. reflexivity.
  - intros Hne Hnone. apply String.eqb_neq in Hne. rewrite Hne, Hnone.
    reflexivity.
  - intros Hne Hsome. apply String.eqb_neq in Hne. rewrite Hne.
    destruct (omap (found_row self) (sub_keys token));
      [congruence | reflexivity].
  - intros Hfuel Hplain key.
    apply (found_row_of F fuel keys self Hinit key Hfuel Hplain).
Qed.

Lemma charngram_lookup_averages_sub_keys_witness :
  charngram_getitem 0%Q Qadd Qdiv_count stale ngram_vectors "<unk>"
  = Ret (Matrix [[0%Q; 0%Q]])
  /\ charngram_getitem 0%Q Qadd Qdiv_count stale ngram_vectors "b"
     = Ret (Matrix [[0%Q; 0%Q]])
  /\ charngram_getitem 0%Q Qadd Qdiv_count stale ngram_vectors "a"
     = Ret (Matrix [[2%Q; 3%Q]])
  /\ (forall key, found_row ngram_vectors key = row_of ngram_vectors key).
Proof.
  assert (HashTable.__init__ 6 ngram_keys = Ret (stoi ngram_vectors)) as Hinit
    by (vm_compute; reflexivity).
  assert (Z.of_nat 6 <= 2 ^ 59) as Hfuel by (vm_compute; discriminate).
  assert (plain_keys ngram_keys) as Hplain by (repeat constructor).
  assert (Forall (fun r : list Q => length r = dim ngram_vectors)
                 (vectors ngram_vectors)) as Hdim
    by (repeat constructor).
  split; [| split; [| split]].
  - apply (proj1 (charngram_lookup_averages_sub_keys
                    Q 0%Q Qadd Qdiv_count stale 6 ngram_keys ngram_vectors
                    "<unk>" Hinit eq_refl Hdim)).
    reflexivity.
  - apply (proj1 (proj2 (charngram_lookup_averages_sub_keys
                    Q 0%Q Qadd Qdiv_count stale 6 ngram_keys ngram_vectors
                    "b" Hinit eq_refl Hdim))).
    + discriminate.
    + reflexivity.
  - apply (proj1 (proj2 (proj2 (charngram_lookup_averages_sub_keys
                    Q 0%Q Qadd Qdiv_count stale 6 ngram_keys ngram_vectors
                    "a" Hinit eq_refl Hdim)))).
    + discriminate.
    + vm_compute. discriminate.
  - apply (proj2 (proj2 (proj2 (charngram_lookup_averages_sub_keys
                    Q 0%Q Qadd Qdiv_count stale 6 ngram_keys ngram_vectors
                    "a" Hinit eq_refl Hdim))) Hfuel Hplain).
Defined.

(** C7, as stated, fails twice.  In a table where the token a is a key
    with the row (9, 9), the plain lookup returns that row, but the
    lookup of the character n-gram table returns the mean (2, 3) of the
    rows of its sub-keys "2gram-#BEGIN#a" and "2gram-a#END#".  And in a
    table whose one key is "2gram-<u", a sub-key of the token <unk> with
    the row (5, 6), the token <unk> is not a key, yet its lookup returns
    the zero row and not that mean. *)
Lemma charngram_lookup_skips_direct_key :
  (HashTable.__contains__ (stoi ngram_vectors) "a" = Ret true
   /\ getitem stale ngram_vectors "a" = Ret (Row [9%Q; 9%Q])
   /\ charngram_getitem 0%Q Qadd Qdiv_count stale ngram_vectors "a"
      = Ret (Matrix [[2%Q; 3%Q]])
   /\ charngram_getitem 0%Q Qadd Qdiv_count stale ngram_vectors "a"
      <> Ret (Row [9%Q; 9%Q]))
  /\ (HashTable.__init__ 2 ["2gram-<u"]%string = Ret (stoi unk_gram_vectors)
      /\ HashTable.__contains__ (stoi unk_gram_vectors) "<unk>" = Ret false
      /\ omap (found_row unk_gram_vectors) (sub_keys "<unk>") = [[5%Q; 6%Q]]
      /\ charngram_getitem 0%Q Qadd Qdiv_count stale unk_gram_vectors "<unk>"
         = Ret (Matrix [[0%Q; 0%Q]])).
Proof.
  split.
  - split; [vm_compute; reflexivity |].
    split; [vm_compute; reflexivity |].
    split; [vm_compute; reflexivity |].
    vm_compute. discriminate.
  - split; [vm_compute; reflexivity |].
    split; [vm_compute; reflexivity |].
    split; vm_compute; reflexivity.
Qed.

(** ** The scenario of the two lines cat and dog *)

Example cat_dog_scenario :
  cache_lines 0%Q Qfloat Some 4 false cat_dog_lines (zero_ 0%Q)
  = Ret cat_dog_vectors
  /\ getitem stale cat_dog_vectors "cat" = Ret (Row [1%Q; 2%Q])
  /\ getitem stale cat_dog_vectors "fish" = Ret (Matrix [[0%Q; 0%Q]]).
Proof. split; [| split]; vm_compute; reflexivity. Qed.

(** Adopting the arrays that a build produced gives the built index
    back, so what holds of a built index holds of a reloaded one. *)
Lemma load_of_built (fuel : nat) (keys : list string) (ht : HashTable.t) :
  HashTable.__init__ fuel keys = Ret ht ->
  HashTable.load (HashTable.itos ht) (HashTable.table ht) = ht.
Proof.
  intros H. apply init_built in H as [_ _ Hsize Hlay _].
  destruct ht as [ks tb n]. simpl in *. unfold HashTable.load.
  rewrite (lay_len _ _ _ Hlay), Hsize. f_equal. lia.
Qed.

(** * Further properties of the index *)

(** X1. On an index built from a key list in which no key ends in a
    NUL character, [key in table] is true exactly for the keys of the
    key list, and the test never raises. *)
Theorem contains_iff_key_present
        (fuel : nat) (keys : list string) (ht : HashTable.t) (key : string) :
  HashTable.__init__ fuel keys = Ret ht ->
  Z.of_nat fuel <= 2 ^ 59 ->
  plain_keys keys ->
  (key ∈ keys -> HashTable.__contains__ ht key = Ret true)
  /\ (key ∉ keys -> HashTable.__contains__ ht key = Ret false).
Proof.
  intros Hinit Hfuel Hplain. apply init_built in Hinit as Hb.
  unfold HashTable.__contains__.
  rewrite (find_index_of fuel keys ht Hb Hfuel Hplain).
  split; intros Hin.
  - destruct (index_of key keys) eqn:E; [reflexivity |].
    apply index_of_None in E. contradiction.
  - apply index_of_None in Hin. rewrite Hin. reflexivity.
Qed.

Lemma contains_iff_key_present_witness :
  HashTable.__contains__ cat_dog_cat_table "dog" = Ret true
  /\ HashTable.__contains__ cat_dog_cat_table "fish" = Ret false.
Proof.
  assert (HashTable.__init__ 6 cat_dog_cat = Ret cat_dog_cat_table) as Hinit
    by (vm_compute; reflexivity).
  assert (Z.of_nat 6 <= 2 ^ 59) as Hfuel by (vm_compute; discriminate).
  assert (plain_keys cat_dog_cat) as Hplain by (repeat constructor).
  split.
  - apply (proj1 (contains_iff_key_present 6 cat_dog_cat cat_dog_cat_table
                    "dog" Hinit Hfuel Hplain)).
    apply list_elem_of_lookup. exists 1%nat. reflexivity.
  - apply (proj2 (contains_iff_key_present 6 cat_dog_cat cat_dog_cat_table
                    "fish" Hinit Hfuel Hplain)).
    apply index_of_None. reflexivity.
Defined.





(** X4. With a number of keys that is not a multiple of 7, building
    the index returns a table, every key being placed within
    [2 * len(keys)] tests of the loop condition. *)
Theorem build_returns_when_step_is_coprime (keys : list string) :
  keys <> [] ->
  Z.of_nat (length keys) mod 7 <> 0 ->
  Z.of_nat (length keys) <= 2 ^ 58 ->
  exists ht, HashTable.__init__ (2 * length keys) keys = Ret ht.
Proof.
  intros Hne Hmod Hlen. apply build_terminates; [assumption | assumption | lia].
Qed.

Lemma build_returns_when_step_is_coprime_witness :
  exists ht, HashTable.__init__ (2 * length cat_dog_cat) cat_dog_cat = Ret ht.
Proof.
  apply (build_returns_when_step_is_coprime cat_dog_cat).
  - discriminate.
  - vm_compute. discriminate.
  - vm_compute. discriminate.
Defined.

Lemma find_loop_in_range (self : HashTable.t) (key : string) (h : Z) :
  0 < HashTable.table_size self ->
  HashTable.table_size self = Z.of_nat (length (HashTable.table self)) ->
  Forall (fun v => 0 <= v <= Z.of_nat (length (HashTable.itos self)))
         (HashTable.table self) ->
  forall probes,
  exists r, HashTable.find_loop self key h probes = Ret r
            /\ forall j, r = Some j ->
                 0 <= j /\ HashTable.itos self !! Z.to_nat j = Some key.
Proof.
  intros Hpos Hsize Hrange.
  induction probes as [| p probes IH]; simpl.
  - exists None. split; [reflexivity | discriminate].
  - pose proof (np_mod_range (int64 (h + 7 * p)) _ Hpos) as Hb.
    set (bucket := np_mod (int64 (h + 7 * p)) (HashTable.table_size self)) in *.
    destruct (ndarray_get_in_range (HashTable.table self) bucket) as [v Hv];
      [lia |].
    rewrite Hv. simpl. unfold HashTable.EMPTY_BUCKET.
    destruct (Z.eqb_spec v 0) as [-> | Hv0].
    + exists None. split; [reflexivity | discriminate].
    + apply ndarray_get_Ret in Hv; [| lia].
      rewrite Forall_lookup in Hrange. apply Hrange in Hv.
      destruct (ndarray_get_in_range (HashTable.itos self) (v - 1)) as [s Hs];
        [lia |].
      rewrite Hs. simpl.
      destruct (String.eqb_spec s key) as [-> | Hsk]; [| exact IH].
      exists (Some (v - 1)). split; [reflexivity |].
      intros j [= <-]. split; [lia |].
      apply ndarray_get_Ret; [lia | assumption].
Qed.

(** X5. An index that adopts stored arrays, whatever their origin,
    answers every lookup without raising as long as each bucket holds 0
    or [1 + j] for an ordinal [j] of the key table; and an ordinal it
    returns is the place of the queried key. *)
Theorem find_on_adopted_table
        (keys : list string) (table : list Z) (key : string) :
  Forall (fun v => 0 <= v <= Z.of_nat (length keys)) table ->
  exists r, HashTable._find (HashTable.load keys table) key = Ret r
            /\ forall j, r = Some j -> 0 <= j /\ keys !! Z.to_nat j = Some key.
Proof.
  intros Hrange. unfold HashTable._find.
  destruct table as [| v table].
  - exists None. split; [reflexivity | discriminate].
  - apply (find_loop_in_range (HashTable.load keys (v :: table)));
      [simpl; lia | reflexivity | assumption].
Qed.

Lemma find_on_adopted_table_witness :
  exists r, HashTable._find (HashTable.load cat_dog [0; 1; 2; 2]) "dog" = Ret r
            /\ forall j, r = Some j ->
                 0 <= j /\ cat_dog !! Z.to_nat j = Some "dog"%string.
Proof.
  apply (find_on_adopted_table cat_dog [0; 1; 2; 2] "dog").
  repeat constructor; simpl; lia.
Defined.

(** X6. Adopting the two arrays of a built index gives an index that
    answers every lookup as the built one does, and whose key table is
    the key list as the array reads it back. *)
Theorem reloaded_index_answers_alike
        (fuel : nat) (keys : list string) (ht : HashTable.t) (key : string) :
  HashTable.__init__ fuel keys = Ret ht ->
  HashTable._find (HashTable.load (HashTable.itos ht) (HashTable.table ht)) key
  = HashTable._find ht key
  /\ HashTable.itos (HashTable.load (HashTable.itos ht) (HashTable.table ht))
     = np_array keys.
Proof.
  intros Hinit. rewrite (load_of_built fuel keys ht Hinit).
  split; [reflexivity |].
  apply (built_itos fuel). apply init_built. assumption.
Qed.

Lemma reloaded_index_answers_alike_witness :
  HashTable._find
    (HashTable.load (HashTable.itos cat_dog_cat_table)
                    (HashTable.table cat_dog_cat_table)) "dog"
  = HashTable._find cat_dog_cat_table "dog"
  /\ HashTable.itos
       (HashTable.load (HashTable.itos cat_dog_cat_table)
                       (HashTable.table cat_dog_cat_table))
     = np_array cat_dog_cat.
Proof.
  apply (reloaded_index_answers_alike 6 cat_dog_cat cat_dog_cat_table "dog").
  vm_compute. reflexivity.
Defined.

(** X24. No element of the key table of a built index ends in a NUL
    character, and a key that does is never found: [_find] reports
    not-found, [key in table] is false and [table[key]] raises
    [KeyError], also when the key was in the key list. *)
Theorem key_ending_in_nul_is_not_found
        (fuel : nat) (keys : list string) (ht : HashTable.t) (key : string) :
  HashTable.__init__ fuel keys = Ret ht ->
  ends_in_nul key = true ->
  plain_keys (HashTable.itos ht)
  /\ HashTable._find ht key = Ret None
  /\ HashTable.__contains__ ht key = Ret false
  /\ HashTable.__getitem__ ht key = Raise KeyError.
Proof.
  intros Hinit Hnul. pose proof (init_built _ _ _ Hinit) as Hb.
  pose proof (find_key_ending_in_nul fuel keys ht Hb key Hnul) as Hfind.
  split.
  - rewrite (built_itos _ _ _ Hb). unfold plain_keys, np_array.
    rewrite Forall_fmap. apply Forall_forall. intros k _. apply np_str_ends.
  - unfold HashTable.__contains__, HashTable.__getitem__. rewrite Hfind.
    split; [reflexivity |]. split; reflexivity.
Qed.

Lemma key_ending_in_nul_is_not_found_witness :
  plain_keys ["a"; "b"; "c"]%string
  /\ HashTable._find
       (HashTable.mk ["a"; "b"; "c"]%string [0; 0; 2; 3; 0; 1] 6) a_nul
     = Ret None
  /\ HashTable.__contains__
       (HashTable.mk ["a"; "b"; "c"]%string [0; 0; 2; 3; 0; 1] 6) a_nul
     = Ret false
  /\ HashTable.__getitem__
       (HashTable.mk ["a"; "b"; "c"]%string [0; 0; 2; 3; 0; 1] 6) a_nul
     = Raise KeyError.
Proof.
  apply (key_ending_in_nul_is_not_found 6 nul_keys
           (HashTable.mk ["a"; "b"; "c"]%string [0; 0; 2; 3; 0; 1] 6) a_nul).
  - vm_compute. reflexivity.
  - reflexivity.
Defined.

(** * Further properties of the line loop *)

Section Loader.

Variable F : Type.
Variable fzero : F.
Variable float : string -> option F.
Variable decode_utf8 : string -> option string.

Lemma floats_length (entries : list string) :
  forall r : list F, floats float entries = Ret r -> length r = length entries.
Proof.
  induction entries as [| x entries IH]; simpl; intros r.
  - intros [= <-]. reflexivity.
  - destruct (float x); [| discriminate].
    destruct (floats float entries) as [vs | |]; simpl; try discriminate.
    intros [= <-]. simpl. f_equal. apply IH. reflexivity.
Qed.

Lemma loader_ok_skip nlines k (st : loader F) (ws : list string) :
  loader_ok nlines k st ->
  loader_ok nlines (S k)
    (mkLoader (l_itos st) (l_vectors st) (l_dim st) (l_i st) ws).
Proof.
  intros [Hc Hr Hw Hm]. constructor; simpl; try assumption. lia.
Qed.

Lemma loader_ok_step nlines k (st : loader F) :
  loader_ok nlines k st -> loader_ok nlines (S k) st.
Proof.
  intros [Hc Hr Hw Hm]. constructor; try assumption. lia.
Qed.

(** What [store_line] does to a loader whose matrix is in place. *)
Lemma store_line_cases binary_lines word entries (st st' : loader F)
      (m : list (list F)) :
  l_vectors st = Some m -> 0 <= l_i st ->
  store_line float decode_utf8 binary_lines word entries st = Ret st' ->
  st' = st
  \/ exists w r,
       (if binary_lines then decode_utf8 word else Some word) = Some w
       /\ Z.of_nat (String.length w) <= MAX_WORD_LENGTH
       /\ floats float entries = Ret r
       /\ 0 <= l_i st < Z.of_nat (length m)
       /\ st' = mkLoader (l_itos st ++ [w])
                         (Some (<[Z.to_nat (l_i st) := r]> m))
                         (l_dim st) (l_i st + 1) (l_warnings st).
Proof.
  intros Hm Hi. unfold store_line.
  destruct (if binary_lines then decode_utf8 word else Some word) as [w |];
    [| intros [= <-]; left; reflexivity].
  destruct (Z.ltb_spec MAX_WORD_LENGTH (Z.of_nat (String.length w))) as [| Hlen];
    [intros [= <-]; left; reflexivity |].
  destruct (floats float entries) as [r | |] eqn:Er; simpl; try discriminate.
  rewrite Hm. unfold ndarray_set.
  destruct (Z.ltb_spec (l_i st) 0); [lia |].
  destruct (Z.leb_spec 0 (l_i st)); [| lia].
  destruct (Z.ltb_spec (l_i st) (Z.of_nat (length m))); simpl; [| discriminate].
  intros [= <-]. right. exists w, r.
  repeat (split; [first [reflexivity | assumption | lia] |]).
  reflexivity.
Qed.

Lemma store_line_inv binary_lines all nlines k line word entries
      (st st' : loader F) (m : list (list F)) (d : Z) :
  loader_inv float decode_utf8 binary_lines all nlines k st ->
  l_vectors st = Some m -> l_dim st = Some d ->
  Z.of_nat (length entries) = d ->
  line ∈ all ->
  fields binary_lines line = word :: entries ->
  store_line float decode_utf8 binary_lines word entries st = Ret st' ->
  loader_inv float decode_utf8 binary_lines all nlines (S k) st'.
Proof.
  intros [Hok Hrows] Hm Hd Hn Hin Hfields Hstore.
  pose proof Hok as [Hc Hr Hw Hmat].
  apply (store_line_cases _ _ _ _ _ m) in Hstore; [| assumption | lia].
  destruct Hstore as [-> | (w & r & Hdec & Hlen & Hfl & Hi & ->)].
  - split; [apply loader_ok_step; assumption | assumption].
  - rewrite Hm, Hd in Hmat. destruct Hmat as (Hd1 & Hlenm & Hall).
    pose proof (floats_length _ _ Hfl) as Hlr.
    split.
    + constructor; simpl.
      * rewrite length_app. simpl. lia.
      * rewrite length_app. simpl. lia.
      * apply Forall_app. split; [assumption |].
        constructor; [assumption | constructor].
      * rewrite Hd. split; [assumption |].
        split; [rewrite length_insert; assumption |].
        apply Forall_insert; [assumption | lia].
    + simpl. intros m' [= <-] j w' r' Hkey Hrow.
      rewrite Hc, Nat2Z.id in Hrow. rewrite Hc in Hi.
      destruct (decide (j = length (l_itos st))) as [-> | Hne].
      * rewrite list_lookup_insert_eq in Hrow by lia.
        rewrite lookup_app_r, Nat.sub_diag in Hkey by lia.
        simpl in Hkey. injection Hkey as <-. injection Hrow as <-.
        exists line, word, entries. auto.
      * rewrite list_lookup_insert_ne in Hrow by congruence.
        assert (j < length (l_itos st))%nat as Hj.
        { apply lookup_lt_Some in Hkey. rewrite length_app in Hkey.
          simpl in Hkey. lia. }
        rewrite lookup_app_l in Hkey by assumption.
        apply (Hrows m Hm j); assumption.
Qed.

Lemma read_line_inv binary_lines all nlines k line (st st' : loader F) :
  loader_inv float decode_utf8 binary_lines all nlines k st ->
  line ∈ all ->
  read_line fzero float decode_utf8 binary_lines nlines line st = Ret st' ->
  loader_inv float decode_utf8 binary_lines all nlines (S k) st'.
Proof.
  intros Hinv Hin. pose proof Hinv as [Hok Hrows].
  pose proof Hok as [Hc Hr Hw Hmat].
  unfold read_line. fold (fields binary_lines line).
  destruct (fields binary_lines line) as [| word entries] eqn:Hfields;
    [discriminate |].
  assert (forall ws,
            loader_inv float decode_utf8 binary_lines all nlines (S k)
              (mkLoader (l_itos st) (l_vectors st) (l_dim st) (l_i st) ws))
    as Hskip.
  { intros ws. split; [apply loader_ok_skip; assumption | exact Hrows]. }
  destruct (l_dim st) as [d |] eqn:Hd.
  - destruct (l_vectors st) as [m |] eqn:Hm; [| contradiction].
    destruct (Z.eqb_spec (Z.of_nat (length entries)) 1);
      [intros [= <-]; apply Hskip |].
    destruct (Z.eqb_spec d (Z.of_nat (length entries))) as [Hdn |];
      simpl; [| discriminate].
    intros Hstore.
    apply (store_line_inv binary_lines all nlines k line word entries st st' m d);
      auto.
  - destruct (l_vectors st) as [m |] eqn:Hm; [contradiction |].
    destruct (Z.ltb_spec 1 (Z.of_nat (length entries))) as [Hgt |].
    + intros Hstore.
      set (m0 := replicate nlines
                   (replicate (Z.to_nat (Z.of_nat (length entries))) fzero)).
      apply (store_line_inv binary_lines all nlines k line word entries
               (mkLoader (l_itos st) (Some m0)
                         (Some (Z.of_nat (length entries))) (l_i st)
                         (l_warnings st))
               st' m0 (Z.of_nat (length entries))); auto.
      split.
      * constructor; simpl; try assumption.
        split; [assumption |]. split; [apply length_replicate |].
        apply Forall_replicate. apply length_replicate.
      * simpl. intros m' _ j w r Hkey. rewrite Hmat in Hkey. discriminate.
    + destruct (Z.eqb_spec (Z.of_nat (length entries)) 1);
        [intros [= <-]; apply Hskip | discriminate].
Qed.

Lemma read_lines_inv binary_lines all nlines :
  forall lines k (st st' : loader F),
    loader_inv float decode_utf8 binary_lines all nlines k st ->
    (forall line, line ∈ lines -> line ∈ all) ->
    read_lines fzero float decode_utf8 binary_lines nlines lines st = Ret st' ->
    loader_inv float decode_utf8 binary_lines all nlines (k + length lines) st'.
Proof.
  induction lines as [| line lines IH]; intros k st st' Hinv Hsub; simpl.
  - intros [= <-]. rewrite Nat.add_0_r. assumption.
  - intros H. apply bind_Ret in H as (st1 & H1 & H).
    replace (k + S (length lines))%nat with (S k + length lines)%nat by lia.
    apply (IH (S k) st1); [| | assumption].
    + apply (read_line_inv _ _ _ _ line st); [assumption | | assumption].
      apply Hsub. left.
    + intros l Hl. apply Hsub. right. assumption.
Qed.

(** X7. When the line loop of [cache] returns, it has kept one key per
    stored row and at most one per line; no key is longer than 100
    characters; if a dimension was found it is at least 2, and the
    matrix has one row per line of the file, each of that many
    components; and each row stored for a key holds the values read
    from a line of the file whose first field is that key. *)
Theorem load_lines_wellformed
        (binary_lines : bool) (lines : list string) (st : loader F) :
  load_lines fzero float decode_utf8 binary_lines lines = Ret st ->
  loader_ok (length lines) (length lines) st
  /\ forall m, l_vectors st = Some m ->
       rows_from_lines float decode_utf8 binary_lines lines (l_itos st) m.
Proof.
  unfold load_lines. intros H.
  apply (read_lines_inv binary_lines lines (length lines) lines 0%nat loader0);
    [| auto | assumption].
  split.
  - constructor; simpl; [reflexivity | lia | constructor | reflexivity].
  - simpl. discriminate.
Qed.

End Loader.

Section Cache.

Variable F : Type.
Variable fzero : F.
Variable float : string -> option F.
Variable decode_utf8 : string -> option string.

Lemma store_line_dim binary_lines word entries (st st' : loader F) :
  store_line float decode_utf8 binary_lines word entries st = Ret st' ->
  l_dim st' = l_dim st.
Proof.
  unfold store_line.
  destruct (if binary_lines then decode_utf8 word else Some word);
    [| intros [= <-]; reflexivity].
  destruct (MAX_WORD_LENGTH <? _); [intros [= <-]; reflexivity |].
  destruct (floats float entries); simpl; try discriminate.
  destruct (l_vectors st); [| discriminate].
  destruct (ndarray_set _ _ _); simpl; try discriminate.
  intros [= <-]. reflexivity.
Qed.

(** What a line that the loop accepts looks like, and what it does to
    the dimension. *)
Lemma read_line_fields binary_lines nlines line (st st' : loader F) :
  read_line fzero float decode_utf8 binary_lines nlines line st = Ret st' ->
  exists word entries,
    fields binary_lines line = word :: entries
    /\ match l_dim st with
       | Some d =>
           l_dim st' = Some d
           /\ (length entries = 1%nat \/ Z.of_nat (length entries) = d)
       | None =>
           (length entries = 1%nat /\ l_dim st' = None)
           \/ ((1 < length entries)%nat
               /\ l_dim st' = Some (Z.of_nat (length entries)))
       end.
Proof.
  unfold read_line. fold (fields binary_lines line).
  destruct (fields binary_lines line) as [| word entries]; [discriminate |].
  intros H. exists word, entries. split; [reflexivity |].
  destruct (l_dim st) as [d |] eqn:Hd.
  - destruct (Z.eqb_spec (Z.of_nat (length entries)) 1).
    + injection H as <-. simpl. split; [reflexivity | left; lia].
    + destruct (Z.eqb_spec d (Z.of_nat (length entries))); simpl in H;
        [| discriminate].
      apply store_line_dim in H. rewrite H, Hd. split; [reflexivity | right; lia].
  - destruct (Z.ltb_spec 1 (Z.of_nat (length entries))).
    + apply store_line_dim in H. simpl in H. right. split; [lia | assumption].
    + destruct (Z.eqb_spec (Z.of_nat (length entries)) 1); [| discriminate].
      injection H as <-. simpl. left. split; [lia | reflexivity].
Qed.

Lemma read_lines_fields binary_lines nlines :
  forall lines (st st' : loader F),
    read_lines fzero float decode_utf8 binary_lines nlines lines st = Ret st' ->
    match l_dim st' with
    | Some d =>
        (l_dim st = None \/ l_dim st = Some d)
        /\ Forall (fun line =>
                     length (fields binary_lines line) = 2%nat
                     \/ Z.of_nat (length (fields binary_lines line)) = 1 + d)
                  lines
    | None =>
        l_dim st = None
        /\ Forall (fun line => length (fields binary_lines line) = 2%nat) lines
    end.
Proof.
  induction lines as [| line lines IH]; intros st st'; simpl.
  - intros [= <-]. destruct (l_dim st); auto.
  - intros H. apply bind_Ret in H as (st1 & H1 & H).
    apply IH in H.
    apply read_line_fields in H1 as (word & entries & Hf & H1).
    destruct (l_dim st') as [d |].
    + destruct H as [Hd1 Hall].
      destruct (l_dim st) as [d0 |].
      * destruct H1 as [Hd0 Hn]. rewrite Hd0 in Hd1.
        destruct Hd1 as [| [= ->]]; [discriminate |].
        split; [auto |]. constructor; [rewrite Hf; simpl; lia | assumption].
      * split; [auto |]. constructor; [| assumption].
        rewrite Hf. simpl.
        destruct H1 as [[Hn Hd] | [Hn Hd]]; [lia |].
        rewrite Hd in Hd1. destruct Hd1 as [| [= <-]]; [discriminate | lia].
    + destruct H as [Hd1 Hall].
      destruct (l_dim st) as [d0 |].
      * destruct H1 as [Hd0 _]. congruence.
      * split; [reflexivity |]. constructor; [| assumption].
        rewrite Hf. simpl.
        destruct H1 as [[Hn Hd] | [Hn Hd]]; [lia | congruence].
Qed.

(** X8. When the line loop returns, every line of the file had either
    exactly one value after its key or exactly as many values as the
    dimension found; with no dimension found, every line had exactly one
    value.  A line without any value, a blank line included, never
    leaves the loop returning. *)
Theorem load_lines_uniform_field_count
        (binary_lines : bool) (lines : list string) (st : loader F) :
  load_lines fzero float decode_utf8 binary_lines lines = Ret st ->
  match l_dim st with
  | Some d =>
      Forall (fun line =>
                length (fields binary_lines line) = 2%nat
                \/ Z.of_nat (length (fields binary_lines line)) = 1 + d)
             lines
  | None =>
      Forall (fun line => length (fields binary_lines line) = 2%nat) lines
  end
  /\ Forall (fun line => length (fields binary_lines line) <> 1%nat) lines.
Proof.
  unfold load_lines. intros H.
  pose proof (load_lines_wellformed F fzero float decode_utf8 binary_lines
                lines st H) as [[_ _ _ Hmat] _].
  apply read_lines_fields in H.
  destruct (l_dim st) as [d |].
  - destruct H as [_ Hall]. split; [assumption |].
    destruct (l_vectors st); [| contradiction].
    destruct Hmat as [Hd _].
    eapply Forall_impl; [exact Hall |]. simpl. intros line Hl. lia.
  - destruct H as [_ Hall]. split; [assumption |].
    eapply Forall_impl; [exact Hall |]. simpl. intros line Hl. lia.
Qed.

(** X9. A file in which every line has exactly one value after its key,
    an empty file included, gives no table: [cache] fails on the
    matrix that was never created. *)
Theorem cache_of_single_value_lines
        (fuel : nat) (binary_lines : bool) (lines : list string)
        (unk : tensor F -> tensor F) :
  Forall (fun line => length (fields binary_lines line) = 2%nat) lines ->
  cache_lines fzero float decode_utf8 fuel binary_lines lines unk
  = Raise AttributeError.
Proof.
  intros Hall. unfold cache_lines, load_lines.
  assert (forall nlines (st : loader F),
            l_dim st = None -> l_vectors st = None ->
            exists st',
              read_lines fzero float decode_utf8 binary_lines nlines lines st
              = Ret st'
              /\ l_dim st' = None /\ l_vectors st' = None) as Hloop.
  { intros nlines. induction Hall as [| line lines Hline Hall IH];
      intros st Hd Hv; simpl; [eauto |].
    unfold read_line. fold (fields binary_lines line).
    destruct (fields binary_lines line) as [| word [| x [| y entries]]];
      try discriminate.
    rewrite Hd. simpl. apply IH; simpl; first [reflexivity | assumption]. }
  destruct (Hloop (length lines) loader0 eq_refl eq_refl)
    as (st' & -> & Hd & Hv).
  simpl. rewrite Hv. reflexivity.
Qed.

End Cache.

(** ** The lines that contribute *)

Section Accepted.

Variable F : Type.
Variable fzero : F.
Variable float : string -> option F.
Variable decode_utf8 : string -> option string.





End Accepted.

Section CacheTable.

Variable F : Type.
Variable fzero : F.
Variable float : string -> option F.
Variable decode_utf8 : string -> option string.

Lemma cache_lines_Ret fuel binary_lines lines unk (self : Vectors F) :
  cache_lines fzero float decode_utf8 fuel binary_lines lines unk = Ret self ->
  exists st m d,
    load_lines fzero float decode_utf8 binary_lines lines = Ret st
    /\ l_vectors st = Some m /\ l_dim st = Some d
    /\ HashTable.__init__ fuel (l_itos st) = Ret (stoi self)
    /\ itos self = np_array (l_itos st)
    /\ vectors self = take (length (l_itos st)) m
    /\ dim self = Z.to_nat d.
Proof.
  unfold cache_lines. intros H. apply bind_Ret in H as (st & Hst & H).
  destruct (l_vectors st) as [m |] eqn:Hm; [| discriminate].
  destruct (l_dim st) as [d |] eqn:Hd; [| discriminate].
  apply bind_Ret in H as (ht & Hht & H). injection H as <-.
  exists st, m, d. simpl.
  repeat (split; [first [assumption | reflexivity] |]).
  split; [| split; reflexivity].
  unfold itos. simpl. apply (built_itos fuel). apply init_built. assumption.
Qed.

(** X10. A table that [cache] makes from the lines of a file has at
    least one key and at most one per line, as many rows as keys, a
    dimension of at least 2, that many components in every row, and no
    key longer than 100 characters. *)
Theorem cache_lines_table
        (fuel : nat) (binary_lines : bool) (lines : list string)
        (unk : tensor F -> tensor F) (self : Vectors F) :
  cache_lines fzero float decode_utf8 fuel binary_lines lines unk = Ret self ->
  itos self <> []
  /\ (length (itos self) <= length lines)%nat
  /\ length (vectors self) = length (itos self)
  /\ (2 <= dim self)%nat
  /\ Forall (fun r : list F => length r = dim self) (vectors self)
  /\ Forall (fun w : string => Z.of_nat (String.length w) <= MAX_WORD_LENGTH)
            (itos self).
Proof.
  intros H.
  apply cache_lines_Ret in H
    as (st & m & d & Hst & Hm & Hd & Hht & Hitos & Hvec & Hdim).
  apply load_lines_wellformed in Hst as [[Hc Hr Hw Hmat] _].
  rewrite Hm, Hd in Hmat. destruct Hmat as (Hd1 & Hlen & Hall).
  rewrite Hitos, Hvec, Hdim, np_array_length.
  split.
  { pose proof (built_nonempty fuel _ (stoi self) (init_built _ _ _ Hht)) as Hne.
    destruct (l_itos st); [congruence | discriminate]. }
  split; [assumption |].
  split; [rewrite length_take; lia |].
  split; [lia |].
  split; [apply Forall_take; assumption |].
  unfold np_array. rewrite Forall_fmap.
  apply (Forall_impl _ _ _ Hw). intros w Hlen'. simpl.
  pose proof (np_str_length w). lia.
Qed.


(** X12. In a table that [cache] makes, a token of more than 100
    characters is never a key: the membership test is false and the
    lookup returns what [unk_init] makes of a fresh tensor. *)
Theorem cache_lines_long_token
        (mem : nat -> F) (fuel : nat) (binary_lines : bool)
        (lines : list string) (unk : tensor F -> tensor F)
        (self : Vectors F) (token : string) :
  cache_lines fzero float decode_utf8 fuel binary_lines lines unk = Ret self ->
  MAX_WORD_LENGTH < Z.of_nat (String.length token) ->
  HashTable.__contains__ (stoi self) token = Ret false
  /\ getitem mem self token
     = Ret (unk_init self (Matrix (Tensor mem 1 (dim self)))).
Proof.
  intros H Hlong.
  pose proof (cache_lines_table fuel binary_lines lines unk self H)
    as (_ & _ & _ & _ & _ & Hwords).
  apply cache_lines_Ret in H
    as (st & m & d & Hst & Hm & Hd & Hht & Hitos & Hvec & Hdim).
  pose proof (init_built _ _ _ Hht) as Hb.
  assert (token ∉ HashTable.itos (stoi self)) as Habs.
  { intros Hin. rewrite Forall_forall in Hwords.
    apply Hwords in Hin. lia. }
  pose proof (contains_absent fuel (l_itos st) (stoi self) token Hb Habs) as Hc.
  split; [assumption |].
  unfold getitem. rewrite Hc. reflexivity.
Qed.

End CacheTable.

Lemma load_lines_wellformed_witness :
  loader_ok (length cat_dog_lines) (length cat_dog_lines) cat_dog_loader
  /\ forall m, l_vectors cat_dog_loader = Some m ->
       rows_from_lines Qfloat Some false cat_dog_lines
                       (l_itos cat_dog_loader) m.
Proof.
  apply (load_lines_wellformed Q 0%Q Qfloat Some false cat_dog_lines
           cat_dog_loader).
  vm_compute. reflexivity.
Defined.

Lemma load_lines_uniform_field_count_witness :
  Forall (fun line =>
            length (fields false line) = 2%nat
            \/ Z.of_nat (length (fields false line)) = 1 + 2)
         cat_dog_lines
  /\ Forall (fun line => length (fields false line) <> 1%nat) cat_dog_lines.
Proof.
  apply (load_lines_uniform_field_count Q 0%Q Qfloat Some false cat_dog_lines
           cat_dog_loader).
  vm_compute. reflexivity.
Defined.

Lemma cache_of_single_value_lines_witness :
  cache_lines 0%Q Qfloat Some 4 false header_lines (zero_ 0%Q)
  = Raise AttributeError.
Proof.
  apply (cache_of_single_value_lines Q 0%Q Qfloat Some 4 false header_lines
           (zero_ 0%Q)).
  repeat constructor.
Defined.

Lemma cache_lines_table_witness :
  itos cat_dog_vectors <> []
  /\ (length (itos cat_dog_vectors) <= length cat_dog_lines)%nat
  /\ length (vectors cat_dog_vectors) = length (itos cat_dog_vectors)
  /\ (2 <= dim cat_dog_vectors)%nat
  /\ Forall (fun r : list Q => length r = dim cat_dog_vectors)
            (vectors cat_dog_vectors)
  /\ Forall (fun w : string => Z.of_nat (String.length w) <= MAX_WORD_LENGTH)
            (itos cat_dog_vectors).
Proof.
  apply (cache_lines_table Q 0%Q Qfloat Some 4 false cat_dog_lines
           (zero_ 0%Q) cat_dog_vectors).
  vm_compute. reflexivity.
Defined.


Lemma cache_lines_long_token_witness :
  HashTable.__contains__ (stoi cat_dog_vectors) long_token = Ret false
  /\ getitem stale cat_dog_vectors long_token
     = Ret (unk_init cat_dog_vectors
              (Matrix (Tensor stale 1 (dim cat_dog_vectors)))).
Proof.
  apply (cache_lines_long_token Q 0%Q Qfloat Some stale 4 false cat_dog_lines
           (zero_ 0%Q) cat_dog_vectors long_token).
  - vm_compute. reflexivity.
  - vm_compute. reflexivity.
Defined.

(** * Dictionaries, counters and sorting *)

Lemma dict_get_set {V : Type} (d : Dict.t V) (k k' : string) (v : V) :
  Dict.get (Dict.set d k v) k'
  = if String.eqb k k' then Some v else Dict.get d k'.
Proof.
  induction d as [| [k0 v0] d IH]; simpl.
  - reflexivity.
  - destruct (String.eqb_spec k0 k) as [-> | Hne]; simpl.
    + destruct (String.eqb_spec k k'); reflexivity.
    + destruct (String.eqb_spec k0 k') as [-> | Hne'].
      * destruct (String.eqb_spec k k'); [congruence | reflexivity].
      * apply IH.
Qed.

Lemma dict_get_None {V : Type} (d : Dict.t V) (k : string) :
  Dict.get d k = None <-> k ∉ d.*1.
Proof.
  induction d as [| [k0 v0] d IH]; simpl.
  - split; [intros _; apply not_elem_of_nil | reflexivity].
  - rewrite not_elem_of_cons.
    destruct (String.eqb_spec k0 k) as [-> | Hne].
    + split; [discriminate | intros [H _]; congruence].
    + rewrite IH. split; [intros H; split; [congruence | assumption] | tauto].
Qed.

Lemma dict_get_elem {V : Type} (d : Dict.t V) (k : string) (v : V) :
  NoDup d.*1 -> (Dict.get d k = Some v <-> (k, v) ∈ d).
Proof.
  induction d as [| [k0 v0] d IH]; simpl; intros Hnd.
  - split; [discriminate | intros H; apply elem_of_nil in H; contradiction].
  - apply NoDup_cons in Hnd as [Hk0 Hnd]. rewrite elem_of_cons.
    destruct (String.eqb_spec k0 k) as [-> | Hne].
    + split.
      * intros [= ->]. left. reflexivity.
      * intros [[= ->] | Hin]; [reflexivity |].
        exfalso. apply Hk0. apply list_elem_of_fmap. exists (k, v). auto.
    + rewrite (IH Hnd). split; [auto |].
      intros [[= -> ->] | Hin]; [congruence | assumption].
Qed.

Lemma dict_set_keys {V : Type} (d : Dict.t V) (k : string) (v : V) :
  (Dict.set d k v).*1 = if Dict.contains d k then d.*1 else d.*1 ++ [k].
Proof.
  unfold Dict.contains.
  induction d as [| [k0 v0] d IH]; [reflexivity |].
  cbn [Dict.set Dict.get].
  destruct (String.eqb_spec k0 k) as [-> | Hne]; [reflexivity |].
  rewrite !fmap_cons, IH.
  destruct (Dict.get d k); reflexivity.
Qed.

Lemma dict_set_NoDup {V : Type} (d : Dict.t V) (k : string) (v : V) :
  NoDup d.*1 -> NoDup (Dict.set d k v).*1.
Proof.
  intros Hnd. rewrite dict_set_keys. unfold Dict.contains.
  destruct (Dict.get d k) eqn:E; [assumption |].
  apply dict_get_None in E.
  apply NoDup_app. split; [assumption |].
  split; [| apply NoDup_singleton].
  intros x Hx Hx'. apply list_elem_of_singleton in Hx'. subst. contradiction.
Qed.

Lemma dict_fold_set_NoDup {V A : Type} (f : A -> string) (g : Dict.t V -> A -> V)
      (l : list A) :
  forall d, NoDup d.*1 ->
            NoDup (fold_left (fun d a => Dict.set d (f a) (g d a)) l d).*1.
Proof.
  induction l as [| a l IH]; intros d Hnd; simpl; [assumption |].
  apply IH. apply dict_set_NoDup. assumption.
Qed.

Lemma dict_update_get {V : Type} (other : Dict.t V) :
  NoDup other.*1 ->
  forall (d : Dict.t V) (k : string),
    Dict.get (Dict.update d other) k
    = match Dict.get other k with
      | Some v => Some v
      | None => Dict.get d k
      end.
Proof.
  unfold Dict.update.
  induction other as [| [k0 v0] other IH]; intros Hnd d k; simpl;
    [reflexivity |].
  apply NoDup_cons in Hnd as [Hk0 Hnd]. simpl in Hk0.
  rewrite (IH Hnd), dict_get_set.
  destruct (String.eqb_spec k0 k) as [-> | Hne]; [| reflexivity].
  apply dict_get_None in Hk0. rewrite Hk0. reflexivity.
Qed.

Lemma counter_update_get (l : list string) (k : string) :
  k ∉ l -> forall c, Dict.get (Counter.update c l) k = Dict.get c k.
Proof.
  unfold Counter.update.
  induction l as [| x l IH]; intros Hk c; simpl; [reflexivity |].
  apply not_elem_of_cons in Hk as [Hx Hk].
  rewrite (IH Hk), dict_get_set.
  destruct (String.eqb_spec x k); [congruence | reflexivity].
Qed.

Lemma counter_subtract_get (mapping : Dict.t Z) :
  NoDup mapping.*1 ->
  forall (c : Counter.t) (k : string),
    Dict.get (Counter.subtract c mapping) k
    = match Dict.get mapping k with
      | Some v => Some (Counter.getitem c k - v)
      | None => Dict.get c k
      end.
Proof.
  unfold Counter.subtract.
  induction mapping as [| [k0 v0] mapping IH]; intros Hnd c k; simpl;
    [reflexivity |].
  apply NoDup_cons in Hnd as [Hk0 Hnd]. simpl in Hk0.
  rewrite (IH Hnd). unfold Counter.getitem. rewrite !dict_get_set.
  destruct (String.eqb_spec k0 k) as [-> | Hne]; [| reflexivity].
  apply dict_get_None in Hk0. rewrite Hk0. reflexivity.
Qed.

(** The dictionary [{tok: g(tok) for tok in l}]. *)
Lemma dict_comprehension_get {V : Type} (g : string -> V) (l : list string)
      (k : string) :
  forall d,
    Dict.get (fold_left (fun d tok => Dict.set d tok (g tok)) l d) k
    = if bool_decide (k ∈ l) then Some (g k) else Dict.get d k.
Proof.
  induction l as [| x l IH]; intros d; simpl; [reflexivity |].
  rewrite IH, dict_get_set.
  destruct (String.eqb_spec x k) as [-> | Hne].
  - rewrite (bool_decide_eq_true_2 (k ∈ k :: l)) by (left).
    destruct (bool_decide (k ∈ l)); reflexivity.
  - destruct (bool_decide (k ∈ l)) eqn:E.
    + apply bool_decide_eq_true_1 in E.
      rewrite bool_decide_eq_true_2 by (right; assumption). reflexivity.
    + apply bool_decide_eq_false_1 in E.
      rewrite bool_decide_eq_false_2; [reflexivity |].
      intros H. apply elem_of_cons in H as [-> | H]; [congruence | contradiction].
Qed.

Lemma string_compare_trans_le (s1 : string) :
  forall s2 s3,
    String.compare s1 s2 <> Gt -> String.compare s2 s3 <> Gt ->
    String.compare s1 s3 <> Gt.
Proof.
  induction s1 as [| c1 s1 IH]; intros [| c2 s2] [| c3 s3]; simpl;
    try congruence.
  unfold Ascii.compare.
  destruct (N.compare_spec (N_of_ascii c1) (N_of_ascii c2)) as [E12 | L12 | G12];
    destruct (N.compare_spec (N_of_ascii c2) (N_of_ascii c3)) as [E23 | L23 | G23];
    destruct (N.compare_spec (N_of_ascii c1) (N_of_ascii c3)) as [E13 | L13 | G13];
    try congruence; try lia.
  apply IH.
Qed.

Lemma string_leb_trans (s1 s2 s3 : string) :
  String.leb s1 s2 = true -> String.leb s2 s3 = true -> String.leb s1 s3 = true.
Proof.
  unfold String.leb. intros H12 H23.
  pose proof (string_compare_trans_le s1 s2 s3) as H.
  destruct (String.compare s1 s2); try discriminate;
    destruct (String.compare s2 s3); try discriminate;
    destruct (String.compare s1 s3); try reflexivity;
    exfalso; apply H; congruence.
Qed.

Lemma insert_sorted_perm {A : Type} (le : A -> A -> bool) (x : A) (l : list A) :
  insert_sorted le x l ≡ₚ x :: l.
Proof.
  induction l as [| y l IH]; simpl; [reflexivity |].
  destruct (le x y); [reflexivity |].
  rewrite IH. apply Permutation_swap.
Qed.

Lemma stable_sort_perm {A : Type} (le : A -> A -> bool) (l : list A) :
  stable_sort le l ≡ₚ l.
Proof.
  induction l as [| x l IH]; simpl; [reflexivity |].
  rewrite insert_sorted_perm, IH. reflexivity.
Qed.

(** Sorting by a total and transitive comparison gives a sorted list. *)
Lemma stable_sort_sorted {A : Type} (le : A -> A -> bool) :
  (forall a b, le a b = true \/ le b a = true) ->
  (forall a b c, le a b = true -> le b c = true -> le a c = true) ->
  forall l, StronglySorted (fun a b => le a b = true) (stable_sort le l).
Proof.
  intros Htotal Htrans.
  assert (forall x s,
            StronglySorted (fun a b => le a b = true) s ->
            StronglySorted (fun a b => le a b = true) (insert_sorted le x s))
    as Hins.
  { intros x s Hs. induction Hs as [| y s Hs IH Hy]; simpl.
    - repeat constructor.
    - destruct (le x y) eqn:E.
      + constructor; [constructor; assumption |].
        constructor; [assumption |].
        eapply Forall_impl; [exact Hy |]. simpl. intros z Hz.
        apply (Htrans x y z); assumption.
      + constructor; [assumption |].
        rewrite insert_sorted_perm. constructor; [| assumption].
        destruct (Htotal x y); congruence. }
  induction l as [| x l IH]; simpl; [constructor | apply Hins; assumption].
Qed.

(** The order of the words of a vocabulary: more frequent first, and
    among equally frequent ones the smaller word first. *)
Lemma sorted_words_sorted (counter : Counter.t) :
  StronglySorted
    (fun a b : string * Z =>
       snd b < snd a \/ (snd a = snd b /\ String.leb (fst a) (fst b) = true))
    (Vocab.sorted_words counter).
Proof.
  unfold Vocab.sorted_words.
  set (R := fun a b : string * Z =>
              snd b < snd a
              \/ (snd a = snd b /\ String.leb (fst a) (fst b) = true)).
  set (le2 := fun a b : string * Z => snd b <=? snd a).
  assert (forall x s,
            StronglySorted R s ->
            Forall (fun z => String.leb (fst x) (fst z) = true) s ->
            StronglySorted R (insert_sorted le2 x s)) as Hins.
  { intros x s Hs. induction Hs as [| y s Hs IH Hy]; simpl; intros Hx.
    - repeat constructor.
    - apply Forall_cons in Hx as [Hxy Hxs].
      unfold le2 at 1. destruct (Z.leb_spec (snd y) (snd x)) as [Hle | Hgt].
      + constructor; [constructor; assumption |].
        constructor.
        * unfold R. destruct (Z.eq_dec (snd x) (snd y)); [right; auto | left; lia].
        * rewrite Forall_forall in Hy, Hxs |- *. intros z Hz.
          specialize (Hy z Hz). specialize (Hxs z Hz). unfold R in Hy |- *.
          destruct (Z.eq_dec (snd x) (snd z)); [right; auto | left; lia].
      + constructor; [apply IH; assumption |].
        rewrite insert_sorted_perm. constructor; [| assumption].
        unfold R. left. lia. }
  pose proof (stable_sort_sorted
                (fun a b : string * Z => String.leb (fst a) (fst b))
                (fun a b => String.leb_total (fst a) (fst b))
                (fun a b c => string_leb_trans (fst a) (fst b) (fst c))
                counter) as Hs1.
  induction Hs1 as [| x s Hs IH Hx]; simpl; [constructor |].
  apply Hins; [assumption |].
  rewrite stable_sort_perm. assumption.
Qed.

Lemma sorted_words_perm (counter : Counter.t) :
  Vocab.sorted_words counter ≡ₚ counter.
Proof.
  unfold Vocab.sorted_words. rewrite !stable_sort_perm. reflexivity.
Qed.

(** * The vocabulary *)

Lemma index_consistent_NoDup itos stoi :
  index_consistent itos stoi -> NoDup itos.
Proof.
  intros [H1 _]. apply NoDup_alt. intros i j w Hi Hj.
  apply H1 in Hi. apply H1 in Hj. rewrite Hi in Hj. injection Hj. lia.
Qed.

Lemma index_consistent_contains itos stoi w :
  index_consistent itos stoi ->
  (Dict.contains stoi w = true <-> w ∈ itos).
Proof.
  intros [H1 H2]. unfold Dict.contains. split.
  - destruct (Dict.get stoi w) as [z |] eqn:E; [| discriminate].
    intros _. apply H2 in E as [_ E]. apply list_elem_of_lookup. eauto.
  - intros Hin. apply list_elem_of_lookup in Hin as [i Hi].
    rewrite (H1 _ _ Hi). reflexivity.
Qed.

Lemma index_consistent_ext itos (d d' : Dict.t Z) :
  (forall k, Dict.get d' k = Dict.get d k) ->
  index_consistent itos d -> index_consistent itos d'.
Proof.
  intros Hext [H1 H2]. split.
  - intros i w Hi. rewrite Hext. apply H1. assumption.
  - intros w z Hz. rewrite Hext in Hz. apply H2. assumption.
Qed.

Lemma index_consistent_append itos stoi w :
  index_consistent itos stoi -> w ∉ itos ->
  index_consistent (itos ++ [w])
    (Dict.set stoi w (Z.of_nat (length (itos ++ [w])) - 1)).
Proof.
  intros [H1 H2] Hw. rewrite length_app. simpl.
  replace (Z.of_nat (length itos + 1) - 1) with (Z.of_nat (length itos)) by lia.
  split.
  - intros i w' Hi. rewrite dict_get_set.
    destruct (decide (i < length itos)%nat) as [Hlt | Hge].
    + rewrite lookup_app_l in Hi by assumption.
      destruct (String.eqb_spec w w') as [<- | Hne].
      * exfalso. apply Hw. apply list_elem_of_lookup. eauto.
      * apply H1. assumption.
    + rewrite lookup_app_r in Hi by lia.
      destruct (i - length itos)%nat as [| n] eqn:En; simpl in Hi;
        [| discriminate].
      injection Hi as <-. rewrite String.eqb_refl. do 2 f_equal. lia.
  - intros w' z. rewrite dict_get_set.
    destruct (String.eqb_spec w w') as [<- | Hne].
    + intros [= <-]. split; [lia |].
      rewrite Nat2Z.id, lookup_app_r, Nat.sub_diag by lia. reflexivity.
    + intros Hz. apply H2 in Hz as [Hz0 Hz]. split; [assumption |].
      rewrite lookup_app_l; [assumption |].
      apply lookup_lt_Some in Hz. assumption.
Qed.

(** The dictionary [{tok: i for i, tok in enumerate(specials)}]. *)
Lemma enumerate_fold_consistent (l : list string) :
  forall (pre : list string) (d : Dict.t Z),
    index_consistent pre d -> NoDup (pre ++ l) ->
    index_consistent (pre ++ l)
      (fold_left (fun d (it : Z * string) => Dict.set d (snd it) (fst it))
                 (imap (fun i x => (Z.of_nat (length pre + i), x)) l) d).
Proof.
  induction l as [| x l IH]; intros pre d Hc Hnd; simpl.
  - rewrite app_nil_r. assumption.
  - replace (pre ++ x :: l) with ((pre ++ [x]) ++ l)
      by (rewrite <- app_assoc; reflexivity).
    rewrite (imap_ext _ (fun i y => (Z.of_nat (length (pre ++ [x]) + i), y)))
      by (intros i y _; simpl; rewrite length_app; simpl; do 2 f_equal; lia).
    apply IH.
    + pose proof (index_consistent_append pre d x Hc) as Happ.
      rewrite length_app in Happ. simpl in Happ.
      replace (Z.of_nat (length pre + 0)) with (Z.of_nat (length pre + 1) - 1)
        by lia.
      apply Happ.
      apply NoDup_app in Hnd as (_ & Hdisj & _).
      intros Hin. apply (Hdisj x Hin). left.
    + rewrite <- app_assoc. assumption.
Qed.

Lemma specials_consistent (specials : list string) :
  NoDup specials ->
  index_consistent specials
    (Dict.update []
       (fold_left (fun d (it : Z * string) => Dict.set d (snd it) (fst it))
                  (enumerate specials) [])).
Proof.
  intros Hnd.
  set (d0 := fold_left (fun d (it : Z * string) => Dict.set d (snd it) (fst it))
                       (enumerate specials) []).
  assert (NoDup d0.*1) as Hd0.
  { unfold d0.
    apply (dict_fold_set_NoDup (fun it : Z * string => snd it)
             (fun _ it => fst it)).
    constructor. }
  apply (index_consistent_ext specials d0).
  - intros k. rewrite (dict_update_get d0 Hd0). simpl.
    destruct (Dict.get d0 k); reflexivity.
  - unfold d0, enumerate.
    apply (enumerate_fold_consistent specials [] []); [| assumption].
    split; [intros i w Hi; discriminate | intros w z Hz; discriminate].
Qed.

(** What the loop over the sorted words does. *)
Lemma add_words_spec (min_freq : Z) (max_size : option Z) :
  forall wf itos stoi itos' stoi',
    Vocab.add_words min_freq max_size wf itos stoi = (itos', stoi') ->
    exists taken rest,
      wf = taken ++ rest
      /\ itos' = itos ++ taken.*1
      /\ Forall (fun p : string * Z => min_freq <= snd p) taken
      /\ (rest = []
          \/ exists p rest',
               rest = p :: rest'
               /\ (snd p < min_freq
                   \/ max_size = Some (Z.of_nat (length itos'))))
      /\ (index_consistent itos stoi -> NoDup itos' ->
          index_consistent itos' stoi').
Proof.
  induction wf as [| [word freq] wf IH]; intros itos stoi itos' stoi'; simpl.
  - intros [= <- <-]. exists [], []. simpl. rewrite app_nil_r.
    split; [reflexivity |]. split; [reflexivity |]. split; [constructor |].
    split; [left; reflexivity | auto].
  - destruct (Z.ltb_spec freq min_freq) as [Hlt | Hge]; simpl.
    { intros [= <- <-]. exists [], ((word, freq) :: wf). simpl.
      rewrite app_nil_r.
      split; [reflexivity |]. split; [reflexivity |]. split; [constructor |].
      split; [| auto]. right. exists (word, freq), wf. auto. }
    destruct (match max_size with
              | Some m => Z.of_nat (length itos) =? m
              | None => false
              end) eqn:Ecap.
    { intros [= <- <-]. exists [], ((word, freq) :: wf). simpl.
      rewrite app_nil_r.
      split; [reflexivity |]. split; [reflexivity |]. split; [constructor |].
      split; [| auto]. right. exists (word, freq), wf.
      split; [reflexivity |]. right.
      destruct max_size as [m |]; [| discriminate].
      apply Z.eqb_eq in Ecap. congruence. }
    assert (forall l : list string, (itos ++ [word]) ++ l = itos ++ word :: l)
      as Hassoc by (intros l; rewrite <- app_assoc; reflexivity).
    intros H. apply IH in H as (taken & rest & -> & -> & Htaken & Hrest & Hcons).
    rewrite (Hassoc taken.*1) in Hrest, Hcons. rewrite Hassoc.
    exists ((word, freq) :: taken), rest. simpl.
    split; [reflexivity |]. split; [reflexivity |].
    split; [constructor; assumption |].
    split; [exact Hrest |].
    intros Hc Hnd. apply Hcons; [| exact Hnd].
    apply index_consistent_append; [assumption |].
    apply NoDup_app in Hnd as (_ & Hdisj & _).
    intros Hin. apply (Hdisj word Hin). left.
Qed.

Lemma add_words_cap (min_freq m : Z) :
  forall wf itos stoi itos' stoi',
    Vocab.add_words min_freq (Some m) wf itos stoi = (itos', stoi') ->
    Z.of_nat (length itos) <= m ->
    Z.of_nat (length itos') <= m.
Proof.
  induction wf as [| [word freq] wf IH]; intros itos stoi itos' stoi'; simpl.
  - intros [= <- <-]. auto.
  - destruct (freq <? min_freq); simpl; [intros [= <- <-]; auto |].
    destruct (Z.eqb_spec (Z.of_nat (length itos)) m); [intros [= <- <-]; auto |].
    intros H Hle. apply IH in H; [assumption |].
    rewrite length_app. simpl. lia.
Qed.

(** The counter that [__init__] sorts: the counts of [counter], with
    every special token at 0. *)
Lemma init_counter_get (counter : Counter.t) (specials : list string) :
  NoDup counter.*1 ->
  let cu := Counter.update counter specials in
  let c' :=
    Counter.subtract cu
      (fold_left (fun d tok => Dict.set d tok (Counter.getitem cu tok))
                 specials []) in
  NoDup c'.*1
  /\ forall k, Dict.get c' k
               = if bool_decide (k ∈ specials) then Some 0
                 else Dict.get counter k.
Proof.
  intros Hnd cu c'.
  assert (NoDup cu.*1) as Hcu.
  { unfold cu, Counter.update.
    apply (dict_fold_set_NoDup (fun elem : string => elem)
             (fun c elem => Counter.getitem c elem + 1)).
    assumption. }
  set (m := fold_left (fun d tok => Dict.set d tok (Counter.getitem cu tok))
                      specials []) in *.
  assert (NoDup m.*1) as Hm.
  { unfold m.
    apply (dict_fold_set_NoDup (fun tok : string => tok)
             (fun _ tok => Counter.getitem cu tok)).
    constructor. }
  split.
  - unfold c', Counter.subtract.
    apply (dict_fold_set_NoDup (fun kv : string * Z => fst kv)
             (fun c kv => Counter.getitem c (fst kv) - snd kv)).
    assumption.
  - intros k. unfold c'. rewrite (counter_subtract_get m Hm).
    unfold m. rewrite (dict_comprehension_get (Counter.getitem cu)).
    destruct (bool_decide (k ∈ specials)) eqn:E.
    + f_equal. lia.
    + simpl. apply bool_decide_eq_false_1 in E.
      apply counter_update_get. assumption.
Qed.

Section VocabInit.

Variable F : Type.
Variables (counter : Counter.t) (max_size : option Z) (min_freq : Z)
          (specials : list string).
Hypothesis Hcounter : NoDup counter.*1.

(** The words taken from the counter, with their counts. *)
Lemma init_taken :
  exists taken rest : list (string * Z),
    Vocab.itos (Vocab.__init__ F counter max_size min_freq specials) = specials ++ taken.*1
    /\ Vocab.freqs (Vocab.__init__ F counter max_size min_freq specials) = counter
    /\ Vocab.vectors (Vocab.__init__ F counter max_size min_freq specials) = None
    /\ StronglySorted before_in_vocab (taken ++ rest)
    /\ NoDup (taken ++ rest).*1
    /\ (forall w f, (w, f) ∈ taken ++ rest <->
                    (if bool_decide (w ∈ specials) then f = 0
                     else Dict.get counter w = Some f)
                    /\ (w ∈ specials \/ w ∈ counter.*1))
    /\ Forall (fun p : string * Z => Z.max min_freq 1 <= snd p) taken
    /\ (rest = []
        \/ exists p rest',
             rest = p :: rest'
             /\ (snd p < Z.max min_freq 1
                 \/ exists m, max_size = Some m
                              /\ Z.of_nat (length (Vocab.itos (Vocab.__init__ F counter max_size min_freq specials)))
                                 = m + Z.of_nat (length specials)))
    /\ (NoDup specials -> index_consistent (Vocab.itos (Vocab.__init__ F counter max_size min_freq specials)) (Vocab.stoi (Vocab.__init__ F counter max_size min_freq specials))).
Proof.
  unfold Vocab.__init__.
  pose proof (init_counter_get counter specials Hcounter) as [Hnd Hget].
  set (cu := Counter.update counter specials) in *.
  set (c' := Counter.subtract cu _) in *.
  destruct (Vocab.add_words _ _ _ _ _) as [itos' stoi'] eqn:E.
  apply add_words_spec in E
    as (taken & rest & Hwf & -> & Htaken & Hrest & Hcons).
  exists taken, rest. simpl.
  pose proof (sorted_words_sorted c') as Hsorted.
  pose proof (sorted_words_perm c') as Hperm.
  rewrite Hwf in Hsorted, Hperm.
  assert (NoDup (taken ++ rest).*1) as Hnd' by (rewrite Hperm; assumption).
  assert (forall w f, (w, f) ∈ taken ++ rest <-> Dict.get c' w = Some f)
    as Hmem.
  { intros w f. rewrite Hperm. symmetry. apply dict_get_elem. assumption. }
  split; [reflexivity |]. split; [reflexivity |]. split; [reflexivity |].
  split; [exact Hsorted |]. split; [exact Hnd' |].
  split; [| split; [exact Htaken | split]].
  - intros w f. rewrite Hmem, Hget.
    destruct (bool_decide (w ∈ specials)) eqn:Es.
    + apply bool_decide_eq_true_1 in Es. split.
      * intros [= <-]. auto.
      * intros [-> _]. reflexivity.
    + split.
      * intros Hw. split; [assumption |]. right.
        apply dict_get_elem in Hw; [| assumption].
        apply list_elem_of_fmap. exists (w, f). auto.
      * intros [Hw _]. assumption.
  - destruct Hrest as [-> | (p & rest' & -> & Hstop)]; [left; reflexivity |].
    right. exists p, rest'. split; [reflexivity |].
    destruct Hstop as [Hlt | Hcap]; [left; assumption | right].
    destruct max_size as [m |]; simpl in Hcap; [| discriminate].
    exists m. split; [reflexivity |]. injection Hcap. lia.
  - intros Hspec. apply Hcons; [apply specials_consistent; assumption |].
    rewrite fmap_app in Hnd'. apply NoDup_app in Hnd' as (Hndt & _ & _).
    apply NoDup_app. split; [assumption |]. split; [| assumption].
    intros w Hw Hw'.
    apply list_elem_of_fmap in Hw' as ([w' f] & -> & Hin). simpl in Hw.
    rewrite Forall_forall in Htaken. pose proof (Htaken _ Hin) as Hf.
    assert ((w', f) ∈ taken ++ rest) as Hin' by (apply elem_of_app; auto).
    apply Hmem in Hin'. rewrite Hget in Hin'.
    rewrite bool_decide_eq_true_2 in Hin' by assumption.
    injection Hin' as <-. simpl in Hf. lia.
Qed.

End VocabInit.

(** X13. The vocabulary made from a counter lists the special tokens
    first and then words of the counter, each once: none of them is a
    special token, each has a count of at least [max(min_freq, 1)], and
    they stand in the order of falling counts, words of equal count in
    the order of the strings.  The counter is kept as [freqs]. *)
Theorem vocab_init_words
        (F : Type) (counter : Counter.t) (max_size : option Z) (min_freq : Z)
        (specials : list string) :
  NoDup counter.*1 ->
  exists new : list (string * Z),
    Vocab.itos (Vocab.__init__ F counter max_size min_freq specials)
    = specials ++ new.*1
    /\ NoDup new.*1
    /\ Forall (fun p : string * Z =>
                 (fst p ∉ specials)
                 /\ Dict.get counter (fst p) = Some (snd p)
                 /\ Z.max min_freq 1 <= snd p) new
    /\ StronglySorted before_in_vocab new
    /\ Vocab.freqs (Vocab.__init__ F counter max_size min_freq specials)
       = counter.
Proof.
  intros Hnd.
  destruct (init_taken F counter max_size min_freq specials Hnd)
    as (taken & rest & Hitos & Hfreqs & _ & Hsorted & Hnd' & Hmem & Htaken & _).
  exists taken.
  split; [assumption |].
  split; [rewrite fmap_app in Hnd'; apply NoDup_app in Hnd'; tauto |].
  split; [| split; [eapply StronglySorted_app_1_l; eassumption | assumption]].
  rewrite Forall_forall in Htaken |- *. intros [w f] Hin. simpl.
  pose proof (Htaken _ Hin) as Hf. simpl in Hf.
  assert ((w, f) ∈ taken ++ rest) as Hin' by (apply elem_of_app; auto).
  apply Hmem in Hin' as [Hcount _].
  destruct (bool_decide (w ∈ specials)) eqn:Es.
  - subst f. lia.
  - apply bool_decide_eq_false_1 in Es. auto.
Qed.

(** X14. A word of the counter whose count reaches [max(min_freq, 1)]
    and which is not a special token is left out of the vocabulary only
    when the vocabulary is full, that is [max_size] was given and
    [len(itos)] equals [max_size + len(specials)]; and then no word that
    was taken has a smaller count. *)
Theorem vocab_init_leaves_out_only_when_full
        (F : Type) (counter : Counter.t) (max_size : option Z) (min_freq : Z)
        (specials : list string) (w : string) (f : Z) :
  NoDup counter.*1 ->
  Dict.get counter w = Some f ->
  Z.max min_freq 1 <= f ->
  w ∉ specials ->
  w ∉ Vocab.itos (Vocab.__init__ F counter max_size min_freq specials) ->
  (exists m, max_size = Some m
             /\ Z.of_nat (length (Vocab.itos
                  (Vocab.__init__ F counter max_size min_freq specials)))
                = m + Z.of_nat (length specials))
  /\ forall w',
       w' ∈ Vocab.itos (Vocab.__init__ F counter max_size min_freq specials) ->
       w' ∉ specials ->
       f <= Counter.getitem counter w'.
Proof.
  intros Hnd Hw Hf Hspec Hout.
  destruct (init_taken F counter max_size min_freq specials Hnd)
    as (taken & rest & Hitos & _ & _ & Hsorted & Hnd' & Hmem & Htaken & Hrest & _).
  rewrite Hitos in Hout |- *.
  assert ((w, f) ∈ taken ++ rest) as Hin.
  { apply Hmem. rewrite bool_decide_eq_false_2 by assumption.
    split; [assumption |]. right.
    apply dict_get_elem in Hw; [| assumption].
    apply list_elem_of_fmap. exists (w, f). auto. }
  assert ((w, f) ∈ rest) as Hinr.
  { apply elem_of_app in Hin as [Hin | Hin]; [| assumption].
    exfalso. apply Hout. apply elem_of_app. right.
    apply list_elem_of_fmap. exists (w, f). auto. }
  destruct Hrest as [-> | (p & rest' & -> & Hstop)];
    [apply elem_of_nil in Hinr; contradiction |].
  split.
  - destruct Hstop as [Hlt | Hcap]; [exfalso | rewrite <- Hitos; exact Hcap].
    apply StronglySorted_app_1_l in Hsorted as Hs1.
    rewrite StronglySorted_app in Hsorted. destruct Hsorted as (_ & _ & Hs2).
    apply StronglySorted_cons in Hs2 as [Hp _].
    apply elem_of_cons in Hinr as [<- | Hinr]; [simpl in Hlt; lia |].
    rewrite Forall_forall in Hp. specialize (Hp _ Hinr).
    unfold before_in_vocab in Hp. simpl in Hp. lia.
  - intros w' Hw' Hspec'.
    apply elem_of_app in Hw' as [Hw' | Hw']; [contradiction |].
    apply list_elem_of_fmap in Hw' as ([w'' f'] & -> & Hin'). simpl in *.
    pose proof (StronglySorted_app_1_elem_of _ _ _ _ _ Hsorted Hin' Hinr) as Hb.
    assert ((w'', f') ∈ taken ++ p :: rest') as Hin'' by (apply elem_of_app; auto).
    apply Hmem in Hin'' as [Hc _].
    rewrite bool_decide_eq_false_2 in Hc by assumption.
    unfold Counter.getitem. rewrite Hc. simpl.
    unfold before_in_vocab in Hb. simpl in Hb. lia.
Qed.

(** X15. With [max_size] given and not negative, the vocabulary has at
    most [max_size] words besides the special tokens. *)
Theorem vocab_init_size_cap
        (F : Type) (counter : Counter.t) (m : Z) (min_freq : Z)
        (specials : list string) :
  0 <= m ->
  Vocab.__len__ (Vocab.__init__ F counter (Some m) min_freq specials)
  <= m + Z.of_nat (length specials).
Proof.
  intros Hm. unfold Vocab.__len__, Vocab.__init__.
  destruct (Vocab.add_words _ _ _ _ _) as [itos' stoi'] eqn:E. simpl.
  simpl in E. apply add_words_cap in E; [assumption | lia].
Qed.

(** X16. When the special tokens are all different, [stoi] and [itos]
    of the vocabulary are inverse to each other: the word at place [i]
    maps to [i], and a word that [stoi] knows stands at the place it
    maps to; so no word stands at two places. *)
Theorem vocab_init_round_trip
        (F : Type) (counter : Counter.t) (max_size : option Z) (min_freq : Z)
        (specials : list string) :
  NoDup counter.*1 ->
  NoDup specials ->
  index_consistent
    (Vocab.itos (Vocab.__init__ F counter max_size min_freq specials))
    (Vocab.stoi (Vocab.__init__ F counter max_size min_freq specials))
  /\ NoDup (Vocab.itos (Vocab.__init__ F counter max_size min_freq specials)).
Proof.
  intros Hnd Hspec.
  destruct (init_taken F counter max_size min_freq specials Hnd)
    as (taken & rest & _ & _ & _ & _ & _ & _ & _ & _ & Hcons).
  specialize (Hcons Hspec).
  split; [assumption | eapply index_consistent_NoDup; eassumption].
Qed.

Lemma add_words_no_cap (min_freq m : Z) :
  forall wf itos stoi,
    m < Z.of_nat (length itos) ->
    Vocab.add_words min_freq (Some m) wf itos stoi
    = Vocab.add_words min_freq None wf itos stoi.
Proof.
  induction wf as [| [word freq] wf IH]; intros itos stoi Hm; simpl;
    [reflexivity |].
  destruct (freq <? min_freq); simpl; [reflexivity |].
  destruct (Z.eqb_spec (Z.of_nat (length itos)) m); [lia |].
  apply IH. rewrite length_app. simpl. lia.
Qed.

(** X17. A negative [max_size] caps nothing: the vocabulary is the one
    made without any [max_size]. *)
Theorem vocab_init_negative_max_size
        (F : Type) (counter : Counter.t) (m : Z) (min_freq : Z)
        (specials : list string) :
  m < 0 ->
  Vocab.__init__ F counter (Some m) min_freq specials
  = Vocab.__init__ F counter None min_freq specials.
Proof.
  intros Hm. unfold Vocab.__init__. simpl.
  rewrite add_words_no_cap by lia. reflexivity.
Qed.

Lemma dict_contains_set {V : Type} (d : Dict.t V) (k k' : string) (v : V) :
  Dict.contains (Dict.set d k v) k' = String.eqb k k' || Dict.contains d k'.
Proof.
  unfold Dict.contains. rewrite dict_get_set.
  destruct (String.eqb k k'); reflexivity.
Qed.

(** What the loop of [extend] does. *)
Lemma extend_with_spec :
  forall words itos stoi itos' stoi',
    Vocab.extend_with words itos stoi = (itos', stoi') ->
    exists added,
      itos' = itos ++ added
      /\ Forall (fun w => w ∈ words) added
      /\ (forall w, Dict.contains stoi w = true \/ w ∈ words ->
                    Dict.contains stoi' w = true)
      /\ (index_consistent itos stoi -> index_consistent itos' stoi').
Proof.
  induction words as [| w words IH]; intros itos stoi itos' stoi'; simpl.
  - intros [= <- <-]. exists []. rewrite app_nil_r.
    split; [reflexivity |]. split; [constructor |]. split; [| auto].
    intros w [H | H]; [assumption | apply elem_of_nil in H; contradiction].
  - destruct (Dict.contains stoi w) eqn:Ec.
    + intros H. apply IH in H as (added & -> & Hadded & Hcont & Hcons).
      exists added. split; [reflexivity |].
      split; [eapply Forall_impl; [exact Hadded |]; intros x Hx; right; exact Hx |].
      split; [| assumption].
      intros w' [H | H]; [apply Hcont; auto |].
      apply elem_of_cons in H as [-> | H]; apply Hcont; auto.
    + intros H. apply IH in H as (added & -> & Hadded & Hcont & Hcons).
      exists (w :: added). rewrite <- app_assoc. simpl.
      split; [reflexivity |].
      split.
      { constructor; [left |].
        eapply Forall_impl; [exact Hadded |]. intros x Hx. right. exact Hx. }
      split.
      * intros w' Hw'. apply Hcont. rewrite dict_contains_set.
        destruct (String.eqb_spec w w') as [<- | Hne]; [left; reflexivity |].
        simpl. destruct Hw' as [H | H]; [left; assumption |].
        apply elem_of_cons in H as [-> | H]; [congruence | right; assumption].
      * intros Hc. rewrite <- app_assoc in Hcons. apply Hcons.
        apply index_consistent_append; [assumption |].
        intros Hin. apply (index_consistent_contains itos stoi w Hc) in Hin.
        congruence.
Qed.

Lemma extend_with_nothing_new :
  forall words itos stoi,
    (forall w, w ∈ words -> Dict.contains stoi w = true) ->
    Vocab.extend_with words itos stoi = (itos, stoi).
Proof.
  induction words as [| w words IH]; intros itos stoi Hall; simpl;
    [reflexivity |].
  rewrite (Hall w) by left. apply IH.
  intros w' Hw'. apply Hall. right. assumption.
Qed.

(** X18. Extending a vocabulary whose [stoi] and [itos] are inverse to
    each other keeps them so.  The old words keep their places, the new
    ones are appended; each new one is a word of [v] that the vocabulary
    did not have, and afterwards every word of [v] is in the
    vocabulary.  Counts and vectors are left alone. *)
Theorem vocab_extend
        (F : Type) (self v : Vocab.t F) (sort : bool) :
  index_consistent (Vocab.itos self) (Vocab.stoi self) ->
  index_consistent (Vocab.itos (Vocab.extend self v sort))
                   (Vocab.stoi (Vocab.extend self v sort))
  /\ (exists added,
        Vocab.itos (Vocab.extend self v sort) = Vocab.itos self ++ added
        /\ forall w, w ∈ added -> w ∈ Vocab.itos v /\ w ∉ Vocab.itos self)
  /\ (forall w, w ∈ Vocab.itos v -> w ∈ Vocab.itos (Vocab.extend self v sort))
  /\ Vocab.freqs (Vocab.extend self v sort) = Vocab.freqs self
  /\ Vocab.vectors (Vocab.extend self v sort) = Vocab.vectors self.
Proof.
  intros Hc. unfold Vocab.extend.
  set (words := if sort then stable_sort String.leb (Vocab.itos v)
                else Vocab.itos v).
  assert (forall w, w ∈ words <-> w ∈ Vocab.itos v) as Hwords.
  { intros w. unfold words. destruct sort; [| reflexivity].
    rewrite stable_sort_perm. reflexivity. }
  destruct (Vocab.extend_with words (Vocab.itos self) (Vocab.stoi self))
    as [itos' stoi'] eqn:E.
  apply extend_with_spec in E as (added & -> & Hadded & Hcont & Hcons).
  specialize (Hcons Hc). simpl.
  split; [assumption |]. split; [| split; [| split; reflexivity]].
  - exists added. split; [reflexivity |].
    intros w Hw. split.
    + rewrite Forall_forall in Hadded. apply Hwords. apply Hadded. assumption.
    + apply index_consistent_NoDup in Hcons.
      apply NoDup_app in Hcons as (_ & Hdisj & _).
      intros Hin. apply (Hdisj w Hin Hw).
  - intros w Hw.
    apply (index_consistent_contains _ stoi' w Hcons).
    apply Hcont. right. apply Hwords. assumption.
Qed.

(** X19. Extending twice by the same vocabulary adds nothing the
    second time. *)
Theorem vocab_extend_idempotent
        (F : Type) (self v : Vocab.t F) (sort : bool) :
  Vocab.extend (Vocab.extend self v sort) v sort = Vocab.extend self v sort.
Proof.
  unfold Vocab.extend.
  set (words := if sort then stable_sort String.leb (Vocab.itos v)
                else Vocab.itos v).
  destruct (Vocab.extend_with words (Vocab.itos self) (Vocab.stoi self))
    as [itos' stoi'] eqn:E.
  simpl.
  apply extend_with_spec in E as (added & -> & _ & Hcont & _).
  rewrite extend_with_nothing_new; [reflexivity |].
  intros w Hw. apply Hcont. right. assumption.
Qed.

Lemma vocab_init_words_witness :
  exists new : list (string * Z),
    Vocab.itos (Vocab.__init__ Q word_counts None 2 unk_pad)
    = unk_pad ++ new.*1
    /\ NoDup new.*1
    /\ Forall (fun p : string * Z =>
                 (fst p ∉ unk_pad)
                 /\ Dict.get word_counts (fst p) = Some (snd p)
                 /\ Z.max 2 1 <= snd p) new
    /\ StronglySorted before_in_vocab new
    /\ Vocab.freqs (Vocab.__init__ Q word_counts None 2 unk_pad) = word_counts.
Proof.
  apply (vocab_init_words Q word_counts None 2 unk_pad).
  apply (bool_decide_unpack _). vm_compute. exact I.
Defined.

Lemma vocab_init_leaves_out_only_when_full_witness :
  (exists m, Some 3 = Some m
             /\ Z.of_nat (length (Vocab.itos
                  (Vocab.__init__ Q word_counts (Some 3) 0 unk_pad)))
                = m + Z.of_nat (length unk_pad))
  /\ forall w',
       w' ∈ Vocab.itos (Vocab.__init__ Q word_counts (Some 3) 0 unk_pad) ->
       w' ∉ unk_pad ->
       2 <= Counter.getitem word_counts w'.
Proof.
  apply (vocab_init_leaves_out_only_when_full Q word_counts (Some 3) 0 unk_pad
           "dog" 2).
  - apply (bool_decide_unpack _). vm_compute. exact I.
  - reflexivity.
  - vm_compute. discriminate.
  - apply index_of_None. reflexivity.
  - apply index_of_None. vm_compute. reflexivity.
Defined.

Lemma vocab_init_size_cap_witness :
  Vocab.__len__ (Vocab.__init__ Q word_counts (Some 3) 0 unk_pad)
  <= 3 + Z.of_nat (length unk_pad).
Proof.
  apply (vocab_init_size_cap Q word_counts 3 0 unk_pad).
  vm_compute. discriminate.
Defined.

Lemma vocab_init_round_trip_witness :
  index_consistent
    (Vocab.itos (Vocab.__init__ Q word_counts None 2 unk_pad))
    (Vocab.stoi (Vocab.__init__ Q word_counts None 2 unk_pad))
  /\ NoDup (Vocab.itos (Vocab.__init__ Q word_counts None 2 unk_pad)).
Proof.
  apply (vocab_init_round_trip Q word_counts None 2 unk_pad).
  - apply (bool_decide_unpack _). vm_compute. exact I.
  - apply (bool_decide_unpack _). vm_compute. exact I.
Defined.

Lemma vocab_init_negative_max_size_witness :
  Vocab.__init__ Q word_counts (Some (-1)) 2 unk_pad
  = Vocab.__init__ Q word_counts None 2 unk_pad.
Proof.
  apply (vocab_init_negative_max_size Q word_counts (-1) 2 unk_pad).
  vm_compute. reflexivity.
Defined.

Lemma vocab_extend_witness :
  index_consistent
    (Vocab.itos (Vocab.extend (Vocab.__init__ Q word_counts None 2 unk_pad)
                              more_words true))
    (Vocab.stoi (Vocab.extend (Vocab.__init__ Q word_counts None 2 unk_pad)
                              more_words true))
  /\ (exists added,
        Vocab.itos (Vocab.extend (Vocab.__init__ Q word_counts None 2 unk_pad)
                                 more_words true)
        = Vocab.itos (Vocab.__init__ Q word_counts None 2 unk_pad) ++ added
        /\ forall w, w ∈ added ->
                     w ∈ Vocab.itos more_words
                     /\ w ∉ Vocab.itos (Vocab.__init__ Q word_counts None 2 unk_pad))
  /\ (forall w, w ∈ Vocab.itos more_words ->
                w ∈ Vocab.itos (Vocab.extend
                                  (Vocab.__init__ Q word_counts None 2 unk_pad)
                                  more_words true))
  /\ Vocab.freqs (Vocab.extend (Vocab.__init__ Q word_counts None 2 unk_pad)
                               more_words true)
     = Vocab.freqs (Vocab.__init__ Q word_counts None 2 unk_pad)
  /\ Vocab.vectors (Vocab.extend (Vocab.__init__ Q word_counts None 2 unk_pad)
                                 more_words true)
     = Vocab.vectors (Vocab.__init__ Q word_counts None 2 unk_pad).
Proof.
  apply (vocab_extend Q (Vocab.__init__ Q word_counts None 2 unk_pad)
           more_words true).
  assert (NoDup word_counts.*1) as Hc
    by (apply (bool_decide_unpack _); vm_compute; exact I).
  assert (NoDup unk_pad) as Hs
    by (apply (bool_decide_unpack _); vm_compute; exact I).
  destruct (init_taken Q word_counts None 2 unk_pad Hc)
    as (taken & rest & _ & _ & _ & _ & _ & _ & _ & _ & Hcons).
  exact (Hcons Hs).
Defined.

Example vocab_scenario :
  Vocab.itos (Vocab.__init__ Q word_counts None 2 unk_pad)
  = ["<unk>"; "<pad>"; "a"; "the"; "cat"; "dog"]%string
  /\ Vocab.itos (Vocab.extend (Vocab.__init__ Q word_counts None 2 unk_pad)
                              more_words true)
     = ["<unk>"; "<pad>"; "a"; "the"; "cat"; "dog"; "ant"; "zebra"]%string.
Proof. split; vm_compute; reflexivity. Qed.

(** * Vectors of a vocabulary *)

Section SetVectors.

Variable F : Type.
Variable fzero : F.

Variables (fuel : nat) (keys : list string) (stoi : HashTable.t).
Variables (table : list (list F)) (dim : nat).
Hypothesis Hinit : HashTable.__init__ fuel keys = Ret stoi.
Hypothesis Hfuel : Z.of_nat fuel <= 2 ^ 59.
Hypothesis Hplain : plain_keys keys.
Hypothesis Hrows : length table = length keys.
Hypothesis Hdim : Forall (fun r : list F => length r = dim) table.





End SetVectors.




Example set_vectors_scenario :
  Vocab.vectors
    (match Vocab.set_vectors stale (Vocab.__init__ Q word_counts None 2 unk_pad)
             (index_get cat_dog_table) [[1%Q; 2%Q]; [3%Q; 4%Q]] 2 (zero_ 0%Q)
     with
     | Ret v => v
     | _ => Vocab.__init__ Q word_counts None 2 unk_pad
     end)
  = Some [[0%Q; 0%Q]; [0%Q; 0%Q]; [0%Q; 0%Q]; [0%Q; 0%Q];
          [1%Q; 2%Q]; [3%Q; 4%Q]].
Proof. vm_compute. reflexivity. Qed.

(** * The hash of a longer string *)

Lemma hash_loop_app (s1 s2 : string) :
  forall h, hash_loop h (s1 ++ s2)%string = hash_loop (hash_loop h s1) s2.
Proof.
  induction s1 as [| c s1 IH]; intros h; simpl; [reflexivity | apply IH].
Qed.

Lemma hash_loop_range (x : string) :
  forall h, 0 <= h < 2 ^ 32 -> 0 <= hash_loop h x < 2 ^ 32.
Proof.
  intros h Hh. rewrite hash_loop_spec. apply spec_hash_fold_range. assumption.
Qed.

(** X21. The hash can be carried on from a prefix: the hash of [s1]
    followed by [s2] is what the loop of [string_hash] makes of [s2]
    when it starts from the hash of [s1]; for one more character [c]
    that is [(string_hash(s1) * 1025 + ord(c) * 1009) mod 2^32]. *)
Theorem string_hash_app (s1 s2 : string) (c : Ascii.ascii) :
  string_hash (s1 ++ s2)%string = hash_loop (string_hash s1) s2
  /\ string_hash (s1 ++ String c EmptyString)%string
     = (string_hash s1 * 1025 + ord c * 1009) mod 2 ^ 32.
Proof.
  assert (forall x, string_hash x = hash_loop 0 x) as Hsh.
  { intros x. unfold string_hash, uint32.
    apply Z.mod_small. apply hash_loop_range. lia. }
  split.
  - rewrite !Hsh. apply hash_loop_app.
  - rewrite !Hsh, hash_loop_app. simpl. apply hash_step_spec.
Qed.

(** * Special tokens given twice *)

Lemma enumerate_fold_last (l : list string) :
  forall tok,
    match Dict.get
            (fold_left (fun d (it : Z * string) => Dict.set d (snd it) (fst it))
                       (enumerate l) []) tok with
    | Some z => exists i, z = Z.of_nat i /\ last_at l tok i
    | None => tok ∉ l
    end.
Proof.
  unfold enumerate.
  induction l as [| x l IH] using rev_ind; intros tok.
  - simpl. apply not_elem_of_nil.
  - rewrite imap_app, fold_left_app. simpl. rewrite dict_get_set.
    rewrite Nat.add_0_r.
    destruct (String.eqb_spec x tok) as [-> | Hne].
    + exists (length l). split; [reflexivity |]. split.
      * rewrite lookup_app_r, Nat.sub_diag by lia. reflexivity.
      * intros j Hj Hl. apply lookup_lt_Some in Hl.
        rewrite length_app in Hl. simpl in Hl. lia.
    + specialize (IH tok).
      destruct (Dict.get _ tok) as [z |].
      * destruct IH as (i & -> & Hi & Hlast). exists i.
        split; [reflexivity |]. split.
        -- rewrite lookup_app_l; [assumption |].
           apply lookup_lt_Some in Hi. assumption.
        -- intros j Hj Hl.
           destruct (decide (j < length l)%nat) as [Hlt | Hge].
           ++ rewrite lookup_app_l in Hl by assumption. apply (Hlast j Hj Hl).
           ++ rewrite lookup_app_r in Hl by lia.
              destruct (j - length l)%nat as [| n]; simpl in Hl;
                [congruence | rewrite lookup_nil in Hl; discriminate].
      * intros Hin. apply elem_of_app in Hin as [Hin | Hin]; [contradiction |].
        apply list_elem_of_singleton in Hin. congruence.
Qed.

Lemma add_words_stoi (min_freq : Z) (max_size : option Z) :
  forall wf itos stoi itos' stoi',
    Vocab.add_words min_freq max_size wf itos stoi = (itos', stoi') ->
    exists added,
      itos' = itos ++ added
      /\ forall tok, tok ∉ added -> Dict.get stoi' tok = Dict.get stoi tok.
Proof.
  induction wf as [| [word freq] wf IH]; intros itos stoi itos' stoi'; simpl.
  - intros [= <- <-]. exists []. rewrite app_nil_r. auto.
  - destruct ((freq <? min_freq) || _).
    + intros [= <- <-]. exists []. rewrite app_nil_r. auto.
    + intros H. apply IH in H as (added & -> & Hget).
      exists (word :: added). rewrite <- app_assoc. split; [reflexivity |].
      intros tok Htok. apply not_elem_of_cons in Htok as [Hne Htok].
      rewrite (Hget tok Htok), dict_get_set.
      destruct (String.eqb_spec word tok); [congruence | reflexivity].
Qed.

(** X22. A special token keeps, in [stoi], the last of its places
    among the special tokens, while [itos] lists every occurrence: when
    a special token is given twice, [stoi] and [itos] no longer agree at
    its earlier places. *)
Theorem vocab_init_repeated_special
        (F : Type) (counter : Counter.t) (max_size : option Z) (min_freq : Z)
        (specials : list string) (tok : string) :
  NoDup counter.*1 ->
  tok ∈ specials ->
  exists i,
    last_at specials tok i
    /\ Dict.get (Vocab.stoi (Vocab.__init__ F counter max_size min_freq specials))
                tok
       = Some (Z.of_nat i)
    /\ forall j, specials !! j = Some tok ->
         Vocab.itos (Vocab.__init__ F counter max_size min_freq specials) !! j
         = Some tok.
Proof.
  intros Hnd Htok.
  destruct (init_taken F counter max_size min_freq specials Hnd)
    as (taken & rest & Hitos & _ & _ & _ & _ & Hmem & Htaken & _).
  revert Hitos. unfold Vocab.__init__.
  set (d0 := fold_left (fun d (it : Z * string) => Dict.set d (snd it) (fst it))
                       (enumerate specials) []).
  destruct (Vocab.add_words _ _ _ _ _) as [itos' stoi'] eqn:E. simpl.
  intros ->.
  apply add_words_stoi in E as (added & Heq & Hget).
  apply app_inv_head in Heq. subst added.
  assert (tok ∉ taken.*1) as Hout.
  { intros Hin. apply list_elem_of_fmap in Hin as ([w f] & -> & Hin).
    simpl in Htok.
    rewrite Forall_forall in Htaken. pose proof (Htaken _ Hin) as Hf.
    assert ((w, f) ∈ taken ++ rest) as Hin' by (apply elem_of_app; auto).
    apply Hmem in Hin' as [Hc _].
    rewrite bool_decide_eq_true_2 in Hc by assumption.
    simpl in Hf. lia. }
  rewrite (Hget tok Hout).
  assert (NoDup d0.*1) as Hd0.
  { unfold d0.
    apply (dict_fold_set_NoDup (fun it : Z * string => snd it)
             (fun _ it => fst it)).
    constructor. }
  rewrite (dict_update_get d0 Hd0). simpl.
  pose proof (enumerate_fold_last specials tok) as Hlast. fold d0 in Hlast.
  destruct (Dict.get d0 tok) as [z |]; [| contradiction].
  destruct Hlast as (i & -> & Hi).
  exists i. split; [assumption |]. split; [reflexivity |].
  intros j Hj. rewrite lookup_app_l; [assumption |].
  apply lookup_lt_Some in Hj. assumption.
Qed.

Lemma vocab_init_repeated_special_witness :
  exists i,
    last_at ["<unk>"; "<pad>"; "<unk>"]%string "<unk>" i
    /\ Dict.get (Vocab.stoi (Vocab.__init__ Q word_counts None 2
                               ["<unk>"; "<pad>"; "<unk>"]%string))
                "<unk>"
       = Some (Z.of_nat i)
    /\ forall j, ["<unk>"; "<pad>"; "<unk>"]%string !! j = Some "<unk>"%string ->
         Vocab.itos (Vocab.__init__ Q word_counts None 2
                       ["<unk>"; "<pad>"; "<unk>"]%string) !! j
         = Some "<unk>"%string.
Proof.
  apply (vocab_init_repeated_special Q word_counts None 2
           ["<unk>"; "<pad>"; "<unk>"]%string "<unk>").
  - apply (bool_decide_unpack _). vm_compute. exact I.
  - left.
Defined.

(** * Keys and rows in the order of the file *)

Section FileOrder.

Variable F : Type.
Variable fzero : F.
Variable float : string -> option F.
Variable decode_utf8 : string -> option string.


End FileOrder.

